(** * arc-commit: the interactive commit workflow

    A shallow embedding of [internal/prompt/commit.go] (the prompt
    composer) and [internal/cmd/commit.go] (the approval workflow), with
    the properties of the workflow proved over it.

    Go strings are byte strings: [string] here.  A Go [error] value is a
    [go_error]; the [nil] error is [None].  A Go function returning
    [(T, error)] returns a pair [T * option go_error].  Everything the
    program reaches outside the repository (git, the AI service, the
    terminal, the editor, the Go runtime's Unicode tables) is a field of
    [World]; every call to it is recorded, with its result, in the trace
    of the session. *)

From Stdlib Require Import String Ascii List ZArith Lia Bool Arith.
Import ListNotations.
Set Warnings "-register-all".
Local Open Scope list_scope.
Local Open Scope string_scope.

(* ================================================================== *)
(** ** Byte strings *)

Module GoStrings.

(** [len(s)], in bytes. *)
Definition len (s : string) : nat := String.length s.

Definition LF : string := String (ascii_of_nat 10) EmptyString.
Definition DQ : string := String (ascii_of_nat 34) EmptyString.

Definition bytes (l : list nat) : string :=
  string_of_list_ascii (map ascii_of_nat l).

(** [strings.Repeat]. *)
Fixpoint Repeat (s : string) (count : nat) : string :=
  match count with
  | O => EmptyString
  | S k => s ++ Repeat s k
  end.

(** The runes of [unicode.IsSpace] in their UTF-8 encoding: tab, line
    feed, vertical tab, form feed, carriage return, space, U+0085,
    U+00A0, U+1680, U+2000 to U+200A, U+2028, U+2029, U+202F, U+205F
    and U+3000. *)
Definition space_runes : list string :=
  map bytes
    [ [9]; [10]; [11]; [12]; [13]; [32];
      [194; 133]; [194; 160];
      [225; 154; 128];
      [226; 128; 128]; [226; 128; 129]; [226; 128; 130]; [226; 128; 131];
      [226; 128; 132]; [226; 128; 133]; [226; 128; 134]; [226; 128; 135];
      [226; 128; 136]; [226; 128; 137]; [226; 128; 138];
      [226; 128; 168]; [226; 128; 169]; [226; 128; 175];
      [226; 129; 159];
      [227; 128; 128] ].

(** [l] without its prefix [r], when it has it. *)
Fixpoint after_prefix (r l : list ascii) : option (list ascii) :=
  match r with
  | [] => Some l
  | a :: r' =>
      match l with
      | [] => None
      | b :: l' => if Ascii.eqb a b then after_prefix r' l' else None
      end
  end.

(** [l] without the word of [code] it starts with. *)
Fixpoint first_word (code : list (list ascii)) (l : list ascii)
  : option (list ascii) :=
  match code with
  | [] => None
  | r :: code' =>
      match after_prefix r l with
      | Some rest => Some rest
      | None => first_word code' l
      end
  end.

(** Drops words of [code] from the front of [l], one per unit of fuel. *)
Fixpoint strip (code : list (list ascii)) (fuel : nat) (l : list ascii)
  : list ascii :=
  match fuel with
  | O => l
  | S f =>
      match first_word code l with
      | Some rest => strip code f rest
      | None => l
      end
  end.

Definition strip_all (code : list (list ascii)) (l : list ascii) : list ascii :=
  strip code (List.length l) l.

(** No word is empty, and no word is a proper prefix of another. *)
Definition prefix_code (code : list (list ascii)) : bool :=
  forallb
    (fun r =>
       negb (Nat.eqb (List.length r) 0) &&
       forallb
         (fun r' =>
            match after_prefix r r' with
            | Some (_ :: _) => false
            | _ => true
            end)
         code)
    code.

(** The first byte of a word is not a later byte of any word. *)
Definition lead_bytes_apart (code : list (list ascii)) : bool :=
  forallb
    (fun r =>
       forallb
         (fun r' =>
            match r' with
            | [] => true
            | a :: _ => negb (existsb (Ascii.eqb a) (tl r))
            end)
         code)
    code.

(** Concatenations of words of [code]. *)
Inductive words (code : list (list ascii)) : list ascii -> Prop :=
| words_nil : words code []
| words_cons r l : In r code -> words code l -> words code (r ++ l).

(** The white-space runes as byte lists, and the same read from their
    last byte: a rune that ends a string is found as its reversed bytes
    at the start of the reversed string. *)
Definition space_code : list (list ascii) := map list_ascii_of_string space_runes.
Definition space_code_rev : list (list ascii) := map (@rev ascii) space_code.

(** [strings.TrimSpace]: the white-space runes at the start are dropped,
    then those at the end; a byte that starts no white-space rune (an
    ill-formed sequence too) stops the trimming. *)
Definition TrimSpace (s : string) : string :=
  string_of_list_ascii
    (rev (strip_all space_code_rev
            (rev (strip_all space_code (list_ascii_of_string s))))).

(** A string made of white-space runes only. *)
Inductive spaces : string -> Prop :=
| spaces_nil : spaces EmptyString
| spaces_cons r s : In r space_runes -> spaces s -> spaces (r ++ s).

(** [strings.ToLower]: the ASCII path lowers the bytes [A] to [Z]; a
    string with a byte of 0x80 or more goes through
    [strings.Map(unicode.ToLower, s)], which the caller supplies. *)
Definition isASCII (s : string) : bool :=
  forallb (fun c => Nat.ltb (nat_of_ascii c) 128) (list_ascii_of_string s).

Definition lower_byte (c : ascii) : ascii :=
  let n := nat_of_ascii c in
  if Nat.leb 65 n && Nat.leb n 90 then ascii_of_nat (n + 32) else c.

Fixpoint lower_bytes (s : string) : string :=
  match s with
  | EmptyString => EmptyString
  | String c r => String (lower_byte c) (lower_bytes r)
  end.

Definition ToLower (unicode_map : string -> string) (s : string) : string :=
  if isASCII s then lower_bytes s else unicode_map s.

End GoStrings.
Import GoStrings.

Example TrimSpace_yes : TrimSpace (" YES " ++ LF) = "YES".
Proof. reflexivity. Qed.

Example TrimSpace_nbsp :
  TrimSpace (bytes [194; 160; 9] ++ "a b" ++ bytes [226; 128; 168; 13]) = "a b".
Proof. vm_compute. reflexivity. Qed.

Example TrimSpace_inner :
  TrimSpace ("fix: a" ++ LF ++ LF ++ "body  ") = "fix: a" ++ LF ++ LF ++ "body".
Proof. vm_compute. reflexivity. Qed.

Example TrimSpace_stops_at_ill_formed :
  TrimSpace (bytes [32; 194] ++ "x" ++ bytes [128; 32]) = bytes [194] ++ "x" ++ bytes [128].
Proof. vm_compute. reflexivity. Qed.

(* ================================================================== *)
(** ** Stripping the words of a prefix code *)

Module PrefixCode.

Local Open Scope list_scope.

Section Code.

Variable code : list (list ascii).
Hypothesis code_ok : prefix_code code = true.

Lemma after_prefix_app r x : after_prefix r (r ++ x) = Some x.
Proof.
  induction r as [|a r IH]; cbn; [reflexivity|].
  now rewrite Ascii.eqb_refl.
Qed.

Lemma after_prefix_some r : forall l x, after_prefix r l = Some x -> l = r ++ x.
Proof.
  induction r as [|a r IH]; intros l x H; cbn in *.
  - congruence.
  - destruct l as [|b l]; [discriminate|].
    destruct (Ascii.eqb_spec a b) as [->|]; [|discriminate].
    now rewrite (IH _ _ H).
Qed.

Lemma first_word_some c : forall l x,
  first_word c l = Some x -> exists r, In r c /\ l = r ++ x.
Proof.
  induction c as [|r c IH]; intros l x H; cbn in *; [discriminate|].
  destruct (after_prefix r l) as [y|] eqn:A.
  - inversion H; subst y. exists r. split; [now left | now apply after_prefix_some].
  - destruct (IH _ _ H) as (r' & I & E). exists r'. split; [now right | exact E].
Qed.

Lemma first_word_none c : forall l,
  first_word c l = None -> forall r x, In r c -> l <> r ++ x.
Proof.
  induction c as [|r c IH]; intros l H r' x I E; [destruct I|].
  cbn in H. destruct (after_prefix r l) eqn:A; [discriminate|].
  destruct I as [->|I].
  - subst l. rewrite after_prefix_app in A. discriminate.
  - exact (IH _ H _ _ I E).
Qed.

Lemma word_nonempty r : In r code -> r <> [].
Proof.
  intros I ->. unfold prefix_code in code_ok.
  rewrite forallb_forall in code_ok.
  specialize (code_ok _ I). cbn in code_ok. discriminate.
Qed.

Lemma word_prefix_free r r' x x' :
  In r code -> In r' code -> r ++ x = r' ++ x' -> r = r'.
Proof.
  intros I I' E.
  assert (P : forall a b y, In a code -> In b code -> b = a ++ y -> y = []).
  { intros a b y Ia Ib ->. unfold prefix_code in code_ok.
    rewrite forallb_forall in code_ok.
    specialize (code_ok _ Ia). apply andb_prop in code_ok as [_ F].
    rewrite forallb_forall in F. specialize (F _ Ib).
    rewrite after_prefix_app in F. destruct y; [reflexivity | discriminate]. }
  apply app_eq_app in E as [l [[E1 E2]|[E1 E2]]].
  - rewrite (P r' r l I' I E1) in E1. now rewrite app_nil_r in E1.
  - rewrite (P r r' l I I' E1) in E1. now rewrite app_nil_r in E1.
Qed.

Lemma first_word_nil : first_word code [] = None.
Proof.
  destruct (first_word code []) as [x|] eqn:F; [|reflexivity].
  destruct (first_word_some _ _ _ F) as (r & I & E).
  symmetry in E. apply app_eq_nil in E as [-> _].
  now apply word_nonempty in I.
Qed.

Lemma first_word_word r x : In r code -> first_word code (r ++ x) = Some x.
Proof.
  intros I. destruct (first_word code (r ++ x)) as [y|] eqn:F.
  - destruct (first_word_some _ _ _ F) as (r' & I' & E).
    assert (r = r') by (eapply word_prefix_free; eauto). subst r'.
    apply app_inv_head in E. now subst.
  - exfalso. exact (first_word_none _ _ F r x I eq_refl).
Qed.

Lemma first_word_shorter l x :
  first_word code l = Some x -> (List.length x < List.length l)%nat.
Proof.
  intros F. destruct (first_word_some _ _ _ F) as (r & I & ->).
  rewrite length_app. apply word_nonempty in I.
  destruct r; [congruence | cbn; lia].
Qed.

Lemma strip_enough : forall f f' l,
  (List.length l <= f)%nat -> (List.length l <= f')%nat ->
  strip code f l = strip code f' l.
Proof.
  induction f as [|f IH]; intros f' l H H'.
  - destruct l; [|cbn in H; lia].
    destruct f'; cbn; [reflexivity|]. now rewrite first_word_nil.
  - destruct f' as [|f'].
    + destruct l; [|cbn in H'; lia]. cbn. now rewrite first_word_nil.
    + cbn. destruct (first_word code l) as [x|] eqn:F; [|reflexivity].
      apply first_word_shorter in F. apply IH; lia.
Qed.

Lemma strip_all_word r x : In r code -> strip_all code (r ++ x) = strip_all code x.
Proof.
  intros I. unfold strip_all.
  pose proof (word_nonempty _ I) as N.
  destruct (List.length (r ++ x)) as [|n] eqn:L.
  { rewrite length_app in L. destruct r; [congruence | cbn in L; lia]. }
  cbn. rewrite (first_word_word _ _ I).
  apply strip_enough; [|lia].
  rewrite length_app in L. destruct r; [congruence | cbn in L; lia].
Qed.

Lemma strip_all_words p x : words code p -> strip_all code (p ++ x) = strip_all code x.
Proof.
  induction 1 as [|r l I W IH]; [reflexivity|].
  rewrite <- app_assoc, (strip_all_word _ _ I). exact IH.
Qed.

Lemma strip_all_stuck l : first_word code l = None -> strip_all code l = l.
Proof.
  intros F. unfold strip_all. destruct (List.length l); cbn; [reflexivity|].
  now rewrite F.
Qed.

Lemma strip_split : forall f l,
  (List.length l <= f)%nat ->
  exists p, words code p /\ l = p ++ strip code f l /\
            first_word code (strip code f l) = None.
Proof.
  induction f as [|f IH]; intros l H.
  - destruct l; [|cbn in H; lia]. exists []. cbn.
    repeat split; [constructor | apply first_word_nil].
  - cbn. destruct (first_word code l) as [x|] eqn:F.
    + pose proof (first_word_shorter _ _ F) as S.
      destruct (first_word_some _ _ _ F) as (r & I & ->).
      destruct (IH x ltac:(lia)) as (p & W & E & N).
      exists (r ++ p). repeat split; [now constructor | | exact N].
      rewrite <- app_assoc. now rewrite <- E.
    + exists []. repeat split; [constructor | exact F].
Qed.

Lemma strip_all_split l :
  exists p, words code p /\ l = p ++ strip_all code l /\
            first_word code (strip_all code l) = None.
Proof. apply strip_split. lia. Qed.

Lemma words_app p q : words code p -> words code q -> words code (p ++ q).
Proof.
  induction 1 as [|r l I W IH]; intros Q; [exact Q|].
  rewrite <- app_assoc. constructor; auto.
Qed.

Lemma words_one r : In r code -> words code r.
Proof. intros I. rewrite <- (app_nil_r r). constructor; [exact I | constructor]. Qed.

(** A stuck list stays stuck when words are appended. *)
Lemma first_word_stuck_app t q :
  lead_bytes_apart code = true ->
  first_word code t = None -> t <> [] -> words code q ->
  first_word code (t ++ q) = None.
Proof.
  intros Lead F N W.
  destruct (first_word code (t ++ q)) as [y|] eqn:G; [exfalso|reflexivity].
  destruct (first_word_some _ _ _ G) as (r & I & E).
  apply app_eq_app in E as [l [[E1 E2]|[E1 E2]]].
  - exact (first_word_none _ _ F r l I E1).
  - destruct l as [|a l].
    { rewrite app_nil_r in E1. subst r.
      apply (first_word_none _ _ F t [] I). now rewrite app_nil_r. }
    destruct W as [|r' q' I' W']; [discriminate|].
    pose proof (word_nonempty _ I') as N'.
    destruct r' as [|a' r']; [congruence|].
    cbn in E2. inversion E2; subst a'.
    unfold lead_bytes_apart in Lead. rewrite forallb_forall in Lead.
    specialize (Lead _ I). rewrite forallb_forall in Lead.
    specialize (Lead _ I'). cbn in Lead.
    apply negb_true_iff in Lead.
    assert (X : existsb (Ascii.eqb a) (tl r) = true).
    { apply existsb_exists. exists a. split; [|apply Ascii.eqb_refl].
      subst r. destruct t as [|b t]; [congruence|]. cbn.
      apply in_or_app. right. now left. }
    congruence.
Qed.

End Code.

Lemma words_rev code p : words code p -> words (map (@rev ascii) code) (rev p).
Proof.
  induction 1 as [|r l I W IH]; [constructor|].
  rewrite rev_app_distr. apply words_app; [exact IH|].
  apply words_one. now apply in_map.
Qed.

Lemma words_unrev code q : words (map (@rev ascii) code) q -> words code (rev q).
Proof.
  induction 1 as [|r l I W IH]; [constructor|].
  rewrite rev_app_distr. apply words_app; [exact IH|].
  apply in_map_iff in I as (r0 & <- & I0).
  rewrite rev_involutive. now apply words_one.
Qed.

(** Stripping and a map on bytes that neither moves a byte of the code
    nor maps another byte onto one. *)
Section Mapped.

Variable f : ascii -> ascii.

Definition apart_from (code : list (list ascii)) : Prop :=
  forall r a x, In r code -> In a r -> Ascii.eqb a (f x) = Ascii.eqb a x.

Lemma after_prefix_map r : forall l,
  (forall a x, In a r -> Ascii.eqb a (f x) = Ascii.eqb a x) ->
  after_prefix r (map f l) = option_map (map f) (after_prefix r l).
Proof.
  induction r as [|a r IH]; intros l H; cbn; [reflexivity|].
  destruct l as [|b l]; cbn; [reflexivity|].
  rewrite (H a b (or_introl eq_refl)).
  destruct (Ascii.eqb a b); [|reflexivity].
  apply IH. intros a' x I. apply H. now right.
Qed.

Lemma first_word_map c : forall l,
  apart_from c ->
  first_word c (map f l) = option_map (map f) (first_word c l).
Proof.
  induction c as [|r c IH]; intros l H; cbn; [reflexivity|].
  rewrite after_prefix_map by (intros a x I; apply (H r a x); [now left | exact I]).
  destruct (after_prefix r l); cbn; [reflexivity|].
  apply IH. intros r' a x I. apply H. now right.
Qed.

Lemma strip_map code : forall fuel l,
  apart_from code ->
  strip code fuel (map f l) = map f (strip code fuel l).
Proof.
  induction fuel as [|fuel IH]; intros l H; cbn; [reflexivity|].
  rewrite first_word_map by exact H.
  destruct (first_word code l); cbn; [now apply IH | reflexivity].
Qed.

Lemma strip_all_map code l :
  apart_from code ->
  strip_all code (map f l) = map f (strip_all code l).
Proof. intros H. unfold strip_all. rewrite length_map. now apply strip_map. Qed.

Lemma apart_from_rev code : apart_from code -> apart_from (map (@rev ascii) code).
Proof.
  intros H r a x I Ia. apply in_map_iff in I as (r0 & <- & I0).
  apply (H r0 a x I0). now apply in_rev.
Qed.

End Mapped.

Definition all_bytes : list ascii := map ascii_of_nat (seq 0 256).

Lemma all_bytes_complete x : In x all_bytes.
Proof.
  rewrite <- (ascii_nat_embedding x). apply in_map, in_seq.
  pose proof (nat_ascii_bounded x). lia.
Qed.

Definition apart_from_b (f : ascii -> ascii) (code : list (list ascii)) : bool :=
  forallb
    (fun r =>
       forallb
         (fun a =>
            forallb (fun x => Bool.eqb (Ascii.eqb a (f x)) (Ascii.eqb a x)) all_bytes)
         r)
    code.

Lemma apart_from_check f code : apart_from_b f code = true -> apart_from f code.
Proof.
  intros H r a x I Ia. unfold apart_from_b in H.
  rewrite forallb_forall in H. specialize (H _ I).
  rewrite forallb_forall in H. specialize (H _ Ia).
  rewrite forallb_forall in H. specialize (H _ (all_bytes_complete x)).
  now apply Bool.eqb_prop in H.
Qed.

End PrefixCode.
Import PrefixCode.

(* ================================================================== *)
(** ** Properties of [TrimSpace] *)

Lemma to_list_app a b :
  list_ascii_of_string (a ++ b) =
  (list_ascii_of_string a ++ list_ascii_of_string b)%list.
Proof. induction a as [|c a IH]; cbn; [reflexivity | now rewrite IH]. Qed.

Lemma of_list_app a b :
  string_of_list_ascii (a ++ b)%list =
  string_of_list_ascii a ++ string_of_list_ascii b.
Proof. induction a as [|c a IH]; cbn; [reflexivity | now rewrite IH]. Qed.

Lemma to_list_lower s :
  list_ascii_of_string (lower_bytes s) = map lower_byte (list_ascii_of_string s).
Proof. induction s as [|c s IH]; cbn; [reflexivity | now rewrite IH]. Qed.

Lemma of_list_lower l :
  string_of_list_ascii (map lower_byte l) = lower_bytes (string_of_list_ascii l).
Proof. induction l as [|c l IH]; cbn; [reflexivity | now rewrite IH]. Qed.

Lemma spaces_words s : spaces s -> words space_code (list_ascii_of_string s).
Proof.
  induction 1 as [|r s I S IH]; [constructor|].
  rewrite to_list_app. constructor; [|exact IH].
  unfold space_code. now apply in_map.
Qed.

Lemma words_spaces l : words space_code l -> spaces (string_of_list_ascii l).
Proof.
  induction 1 as [|r l I W IH]; [constructor|].
  rewrite of_list_app. constructor; [|exact IH].
  unfold space_code in I. apply in_map_iff in I as (r0 & <- & I0).
  now rewrite string_of_list_ascii_of_string.
Qed.

Lemma space_code_ok : prefix_code space_code = true.
Proof. vm_compute. reflexivity. Qed.

Lemma space_code_rev_ok : prefix_code space_code_rev = true.
Proof. vm_compute. reflexivity. Qed.

Lemma space_code_lead : lead_bytes_apart space_code = true.
Proof. vm_compute. reflexivity. Qed.

Lemma lower_apart : apart_from lower_byte space_code.
Proof. apply apart_from_check. vm_compute. reflexivity. Qed.

Lemma TrimSpace_spaces s : spaces s -> TrimSpace s = EmptyString.
Proof.
  intros S. unfold TrimSpace.
  rewrite <- (app_nil_r (list_ascii_of_string s)).
  rewrite (strip_all_words _ space_code_ok _ [] (spaces_words _ S)).
  reflexivity.
Qed.

Lemma TrimSpace_surrounded pre s post :
  spaces pre -> spaces post -> TrimSpace (pre ++ s ++ post) = TrimSpace s.
Proof.
  intros P Q. unfold TrimSpace. rewrite !to_list_app.
  apply spaces_words in P, Q.
  set (S := list_ascii_of_string s).
  rewrite (strip_all_words _ space_code_ok _ _ P).
  destruct (strip_all_split _ space_code_ok S) as (p & Wp & E & N).
  remember (strip_all space_code S) as t eqn:T.
  rewrite E at 1. rewrite <- app_assoc.
  rewrite (strip_all_words _ space_code_ok _ _ Wp).
  destruct t as [|c t'].
  - cbn [app]. rewrite <- (app_nil_r (list_ascii_of_string post)).
    rewrite (strip_all_words _ space_code_ok _ [] Q). reflexivity.
  - rewrite (strip_all_stuck _ _
               (first_word_stuck_app _ space_code_ok _ _ space_code_lead N
                  ltac:(discriminate) Q)).
    rewrite rev_app_distr.
    rewrite (strip_all_words _ space_code_rev_ok _ _ (words_rev _ _ Q)).
    reflexivity.
Qed.

Lemma TrimSpace_split s :
  exists pre post,
    spaces pre /\ spaces post /\ s = pre ++ TrimSpace s ++ post.
Proof.
  unfold TrimSpace.
  destruct (strip_all_split _ space_code_ok (list_ascii_of_string s))
    as (p & Wp & E & N).
  set (t := strip_all space_code (list_ascii_of_string s)) in *.
  destruct (strip_all_split _ space_code_rev_ok (rev t)) as (q & Wq & E' & N').
  set (u := strip_all space_code_rev (rev t)) in *.
  exists (string_of_list_ascii p), (string_of_list_ascii (rev q)).
  split; [now apply words_spaces|].
  split; [apply words_spaces; now apply words_unrev|].
  rewrite <- !of_list_app.
  apply (f_equal (@rev ascii)) in E'.
  rewrite rev_involutive, rev_app_distr in E'.
  rewrite <- E', <- E. now rewrite string_of_list_ascii_of_string.
Qed.

Lemma TrimSpace_trimmed s :
  (forall r rest, In r space_runes -> TrimSpace s <> r ++ rest) /\
  (forall r init, In r space_runes -> TrimSpace s <> init ++ r).
Proof.
  unfold TrimSpace.
  destruct (strip_all_split _ space_code_ok (list_ascii_of_string s))
    as (p & Wp & E & N).
  set (t := strip_all space_code (list_ascii_of_string s)) in *.
  destruct (strip_all_split _ space_code_rev_ok (rev t)) as (q & Wq & E' & N').
  set (u := strip_all space_code_rev (rev t)) in *.
  split.
  - intros r rest I H.
    apply (f_equal list_ascii_of_string) in H.
    rewrite list_ascii_of_string_of_list_ascii, to_list_app in H.
    apply (f_equal (@rev ascii)) in E'.
    rewrite rev_involutive, rev_app_distr in E'.
    rewrite H, <- app_assoc in E'.
    apply (first_word_none _ _ N (list_ascii_of_string r)
             (list_ascii_of_string rest ++ rev q)%list).
    + unfold space_code. now apply in_map.
    + exact E'.
  - intros r init I H.
    apply (f_equal list_ascii_of_string) in H.
    rewrite list_ascii_of_string_of_list_ascii, to_list_app in H.
    apply (f_equal (@rev ascii)) in H.
    rewrite rev_involutive, rev_app_distr in H.
    apply (first_word_none _ _ N' (rev (list_ascii_of_string r))
             (rev (list_ascii_of_string init))).
    + unfold space_code_rev, space_code. now apply in_map, in_map.
    + exact H.
Qed.

Lemma TrimSpace_lower s : TrimSpace (lower_bytes s) = lower_bytes (TrimSpace s).
Proof.
  unfold TrimSpace.
  rewrite to_list_lower, (strip_all_map _ _ _ lower_apart), <- map_rev.
  rewrite (strip_all_map _ _ _ (apart_from_rev _ _ lower_apart)), <- map_rev.
  apply of_list_lower.
Qed.

Lemma forallb_suffix {A} (P : A -> bool) (a b : list A) :
  forallb P (a ++ b)%list = true -> forallb P b = true.
Proof. rewrite forallb_app. intros H. now apply andb_prop in H. Qed.

Lemma forallb_rev {A} (P : A -> bool) (l : list A) :
  forallb P (rev l) = forallb P l.
Proof.
  induction l as [|a l IH]; [reflexivity|].
  cbn. rewrite forallb_app, IH. cbn. rewrite andb_true_r. apply andb_comm.
Qed.

Lemma isASCII_TrimSpace s : isASCII s = true -> isASCII (TrimSpace s) = true.
Proof.
  unfold isASCII, TrimSpace. intros H.
  rewrite list_ascii_of_string_of_list_ascii, forallb_rev.
  destruct (strip_all_split _ space_code_ok (list_ascii_of_string s))
    as (p & _ & E & _).
  set (t := strip_all space_code (list_ascii_of_string s)) in *.
  destruct (strip_all_split _ space_code_rev_ok (rev t)) as (q & _ & E' & _).
  rewrite E in H. apply forallb_suffix in H.
  rewrite <- forallb_rev, E' in H. now apply forallb_suffix in H.
Qed.

(* ================================================================== *)
(** ** Errors *)

(** Go error values.  [ErrNew] is [errors.New] (and any error of a
    library that carries only its text), [ExitError] is
    [*exec.ExitError] with its [ExitCode()], [ErrWrap msg e] is
    [fmt.Errorf(msg + ": %w", e)], and [CLIError] is the value built by
    arc-sdk's [errors.NewCLIError(msg)], [.WithHint] and [.WithCause]. *)
Inductive go_error : Type :=
| ErrNew (msg : string)
| ExitError (code : Z)
| ErrWrap (msg : string) (cause : go_error)
| CLIError (msg : string) (hint : option string) (cause : option go_error).

Definition NewCLIError (msg : string) : go_error := CLIError msg None None.

Definition WithHint (e : go_error) (h : string) : go_error :=
  match e with
  | CLIError msg _ cause => CLIError msg (Some h) cause
  | _ => e
  end.

Definition WithCause (e : go_error) (c : go_error) : go_error :=
  match e with
  | CLIError msg hint _ => CLIError msg hint (Some c)
  | _ => e
  end.

(** [io.EOF]. *)
Definition io_EOF : go_error := ErrNew "EOF".

(** The errors reached from [e] by [errors.Unwrap], [e] first. *)
Fixpoint unwrap_chain (e : go_error) : list go_error :=
  e :: match e with
       | ErrWrap _ c => unwrap_chain c
       | CLIError _ _ (Some c) => unwrap_chain c
       | _ => []
       end.

(** The text an error starts with: its phase description. *)
Definition error_text (e : go_error) : string :=
  match e with
  | ErrNew msg => msg
  | ExitError _ => "exit status"
  | ErrWrap msg _ => msg
  | CLIError msg _ _ => msg
  end.

(** [main]: the process exits 0 when the command returns [nil], 1 otherwise. *)
Definition exit_code (r : option go_error) : Z :=
  match r with
  | None => 0
  | Some _ => 1
  end.

(* ================================================================== *)
(** ** The prompt composer: [internal/prompt/commit.go] *)

Module prompt.

Definition CommitMessageModel : string := "claude-haiku-4-5-20251001".

Definition system_prompt : string :=
  "You are an expert developer who writes clear, professional commit messages following conventional commits format." ++ LF ++
  LF ++
  "Your task is to generate a commit message based on git diff output. Follow these principles:" ++ LF ++
  LF ++
  "1. **Format**: Use conventional commits (feat:, fix:, refactor:, docs:, test:, chore:)" ++ LF ++
  "2. **Subject line**: Concise summary (max 72 chars), imperative mood (" ++ DQ ++ "add" ++ DQ ++ " not " ++ DQ ++ "added" ++ DQ ++ ")" ++ LF ++
  "3. **Body**: Explain WHY, not WHAT (the diff shows what changed)" ++ LF ++
  "4. **Scope**: Add scope when helpful (e.g., " ++ DQ ++ "feat(cli):" ++ DQ ++ ", " ++ DQ ++ "fix(database):" ++ DQ ++ ")" ++ LF ++
  "5. **Breaking changes**: Use " ++ DQ ++ "!" ++ DQ ++ " for breaking changes (e.g., " ++ DQ ++ "feat!:" ++ DQ ++ ")" ++ LF ++
  LF ++
  "Style guidelines:" ++ LF ++
  "- Clear and professional tone" ++ LF ++
  "- No unnecessary words or filler" ++ LF ++
  "- Focus on user impact and intent" ++ LF ++
  "- Group related changes logically" ++ LF ++
  LF ++
  "Output ONLY the commit message, no additional commentary.".

Definition user_prefix : string :=
  "Generate a conventional commit message for these changes:" ++ LF ++ LF.

Definition feedback_marker : string :=
  LF ++ LF ++ "User feedback for improvement: ".

(** [CommitMessage(diff, feedback) (system, user)]. *)
Definition CommitMessage (diff feedback : string) : string * string :=
  let system := system_prompt in
  let user := user_prefix ++ diff in
  let user :=
    if negb (String.eqb feedback EmptyString)
    then user ++ feedback_marker ++ feedback
    else user in
  (system, user).

End prompt.

(* ================================================================== *)
(** ** The world outside the repository *)

(** [ai.Config], of which the workflow reads and writes [DefaultModel]. *)
Record Config : Type := { DefaultModel : string }.

(** What one [reader.ReadString] call returned: the bytes read, and the
    error when the delimiter was not reached. *)
Record ReadResult : Type := { rd_text : string; rd_err : option go_error }.

(** The two places that read a line from the terminal. *)
Inductive ReadSite : Type := ChoiceLine | FeedbackLine.

(** The answers of the collaborators.  [service_Run n] is the [n]-th call
    of [service.Run] in the session (the service need not answer twice
    alike); [editor_Run editor content] gives the content of the
    temporary file when the editor process ends. *)
Record World : Type := {
  git_diff_staged_quiet : option go_error;
  git_diff_staged : string * option go_error;
  ai_NewClient : Config -> option go_error;
  service_Run : nat -> string -> string -> string -> string * option go_error;
  getenv_EDITOR : string;
  os_CreateTemp : option go_error;
  tmp_WriteString : string -> option go_error;
  editor_Run : string -> string -> string * option go_error;
  os_ReadFile : option go_error;
  git_commit : string -> option go_error;
  unicode_ToLower : string -> string
}.

(** The observable steps of a session, each with what it returned. *)
Inductive Event : Type :=
| EvStdout (text : string)
| EvGitDiffQuiet (r : option go_error)
| EvGitDiff (r : string * option go_error)
| EvNewClient (cfg : Config) (r : option go_error)
| EvServiceRun (n : nat) (model system user : string) (r : string * option go_error)
| EvReadString (site : ReadSite) (r : ReadResult)
| EvCreateTemp (r : option go_error)
| EvWriteTemp (content : string) (r : option go_error)
| EvEditor (editor : string) (r : string * option go_error)
| EvReadFile (r : string * option go_error)
| EvRemoveTemp
| EvGitCommit (message : string) (r : option go_error).

Definition Trace : Type := list Event.

(** A computation that logs its steps. *)
Definition IO (A : Type) : Type := (Trace * A)%type.

Definition ret {A} (a : A) : IO A := ([], a).
Definition bind {A B} (m : IO A) (k : A -> IO B) : IO B :=
  let r := k (snd m) in ((fst m ++ fst r)%list, snd r).
Definition emit {A} (e : Event) (a : A) : IO A := ([e], a).

Declare Scope io_scope.
Delimit Scope io_scope with io.
Notation "x <- m ;; k" := (bind m (fun x => k))
  (at level 61, m at next level, right associativity) : io_scope.
Notation "m ;; k" := (bind m (fun _ => k))
  (at level 61, right associativity) : io_scope.
Local Open Scope io_scope.

Definition Println (s : string) : IO unit := emit (EvStdout (s ++ LF)) tt.
Definition Print (s : string) : IO unit := emit (EvStdout s) tt.

(** [reader.ReadString('\n')] on the lines the terminal still holds:
    the next line, or [io.EOF] with no bytes once the stream has ended. *)
Definition next_line (stdin : list ReadResult) : ReadResult :=
  match stdin with
  | [] => {| rd_text := EmptyString; rd_err := Some io_EOF |}
  | r :: _ => r
  end.
Definition after_line (stdin : list ReadResult) : list ReadResult :=
  match stdin with
  | [] => stdin
  | _ :: rest => rest
  end.

(** The messages [git commit] was called with, whether or not the
    commit was created. *)
Fixpoint commit_calls (t : Trace) : list string :=
  match t with
  | [] => []
  | EvGitCommit m _ :: t' => m :: commit_calls t'
  | _ :: t' => commit_calls t'
  end.

Definition is_read (e : Event) : bool :=
  match e with EvReadString _ _ => true | _ => false end.

(** The decisions of the [switch choice] statement. *)
Inductive Decision : Type := Approve | Regenerate | Edit | Cancel | Invalid.

Definition switch_choice (choice : string) : Decision :=
  if String.eqb choice "y" || String.eqb choice "yes" then Approve
  else if String.eqb choice "n" || String.eqb choice "no" then Regenerate
  else if String.eqb choice "e" || String.eqb choice "edit" then Edit
  else if String.eqb choice "c" || String.eqb choice "cancel" then Cancel
  else Invalid.

(* ================================================================== *)
(** ** The workflow: [internal/cmd/commit.go] *)

Section Workflow.

Variable w : World.

(** [strings.ToLower(strings.TrimSpace(choice))], then the switch. *)
Definition parse_decision (line : string) : Decision :=
  switch_choice (ToLower (unicode_ToLower w) (TrimSpace line)).

(** [checkStagedChanges()]. *)
Definition checkStagedChanges : IO (option go_error) :=
  let err := git_diff_staged_quiet w in
  emit (EvGitDiffQuiet err) tt ;;
  match err with
  | Some e =>
      match e with
      | ExitError 1 => ret None
      | _ => ret (Some (ErrWrap "failed to check staged changes" e))
      end
  | None => ret (Some (ErrNew "no staged changes"))
  end.

(** [getStagedDiff()]. *)
Definition getStagedDiff : IO (string * option go_error) :=
  let r := git_diff_staged w in
  emit (EvGitDiff r) tt ;;
  match snd r with
  | Some e => ret (EmptyString, Some (ErrWrap "failed to get diff" e))
  | None => ret (fst r, None)
  end.

(** [generateCommitMessage(service, diff, feedback)]; [n] counts the
    calls of the service made so far, [model] is the model the service
    was built with. *)
Definition generateCommitMessage (n : nat) (model diff feedback : string)
  : IO (string * option go_error) :=
  let p := prompt.CommitMessage diff feedback in
  let r := service_Run w n model (fst p) (snd p) in
  emit (EvServiceRun n model (fst p) (snd p) r) tt ;;
  match snd r with
  | Some e => ret (EmptyString, Some (ErrWrap "AI request failed" e))
  | None => ret (TrimSpace (fst r), None)
  end.

(** [editInEditor(message)].  [os.Remove] is deferred once the
    temporary file exists, so it ends every later path. *)
Definition editInEditor (message : string) : IO (string * option go_error) :=
  let editor := getenv_EDITOR w in
  let editor := if String.eqb editor EmptyString then "vim" else editor in
  emit (EvCreateTemp (os_CreateTemp w)) tt ;;
  match os_CreateTemp w with
  | Some e => ret (EmptyString, Some (ErrWrap "failed to create temp file" e))
  | None =>
      r <- (emit (EvWriteTemp message (tmp_WriteString w message)) tt ;;
            match tmp_WriteString w message with
            | Some e => ret (EmptyString, Some (ErrWrap "failed to write temp file" e))
            | None =>
                let ed := editor_Run w editor message in
                emit (EvEditor editor ed) tt ;;
                match snd ed with
                | Some e => ret (EmptyString, Some (ErrWrap "editor failed" e))
                | None =>
                    emit (EvReadFile (fst ed, os_ReadFile w)) tt ;;
                    match os_ReadFile w with
                    | Some e => ret (EmptyString, Some (ErrWrap "failed to read edited file" e))
                    | None => ret (fst ed, None)
                    end
                end
            end) ;;
      emit EvRemoveTemp tt ;;
      ret r
  end.

(** [createCommit(message)]: [git commit -F -] with the message on its
    standard input. *)
Definition createCommit (message : string) : IO (option go_error) :=
  let err := git_commit w message in
  emit (EvGitCommit message err) tt ;;
  match err with
  | Some e => ret (Some (ErrWrap "failed to create commit" e))
  | None => ret None
  end.

Definition stage_hint : string := "Stage changes first: git add <files>".
Definition choice_prompt : string :=
  LF ++ "[y]es, [n]o (regenerate), [e]dit, [c]ancel: ".
Definition feedback_prompt : string :=
  LF ++ "What would you like improved? (or press Enter for generic): ".

(** The [for] loop of [runInteractiveCommit], from the display of
    [message] on; [stdin] is what the terminal still holds, [n] the
    number of calls the service has had. *)
Fixpoint interactive_loop (autoYes dryRun : bool) (model diff : string)
    (stdin : list ReadResult) (message : string) (n : nat)
  : IO (option go_error) :=
  Println (LF ++ Repeat "=" 70) ;;
  Println message ;;
  Println (Repeat "=" 70) ;;
  if dryRun then
    Println (LF ++ "(Dry run - no commit created)") ;;
    ret None
  else if autoYes then
    Println (LF ++ "Auto-committing...") ;;
    createCommit message
  else
    Print choice_prompt ;;
    emit (EvReadString ChoiceLine (next_line stdin)) tt ;;
    match stdin with
    | [] => ret (Some (WithCause (NewCLIError "failed to read input") io_EOF))
    | rd :: rest =>
        match rd_err rd with
        | Some err => ret (Some (WithCause (NewCLIError "failed to read input") err))
        | None =>
            match parse_decision (rd_text rd) with
            | Approve => createCommit message
            | Regenerate =>
                Print feedback_prompt ;;
                let fb := next_line rest in
                emit (EvReadString FeedbackLine fb) tt ;;
                let feedback := TrimSpace (rd_text fb) in
                Println (LF ++ "Regenerating...") ;;
                g <- generateCommitMessage n model diff feedback ;;
                match snd g with
                | Some err =>
                    ret (Some (WithCause (NewCLIError "failed to regenerate message") err))
                | None =>
                    interactive_loop autoYes dryRun model diff
                      (after_line rest) (fst g) (S n)
                end
            | Edit =>
                ed <- editInEditor message ;;
                match snd ed with
                | Some err =>
                    ret (Some (WithCause (NewCLIError "failed to open editor") err))
                | None => createCommit (fst ed)
                end
            | Cancel =>
                Println (LF ++ "Commit cancelled.") ;;
                ret None
            | Invalid =>
                Println (LF ++ "Invalid choice. Please enter y/n/e/c.") ;;
                interactive_loop autoYes dryRun model diff rest message n
            end
        end
    end.

(** [runInteractiveCommit(cfg, autoYes, dryRun)]. *)
Definition runInteractiveCommit (cfg : Config) (autoYes dryRun : bool)
    (stdin : list ReadResult) : IO (option go_error) :=
  Println "Checking for staged changes..." ;;
  err <- checkStagedChanges ;;
  match err with
  | Some _ =>
      ret (Some (WithHint (NewCLIError "no staged changes found") stage_hint))
  | None =>
      Println "Generating diff..." ;;
      d <- getStagedDiff ;;
      match snd d with
      | Some err => ret (Some (WithCause (NewCLIError "failed to get diff") err))
      | None =>
          let diff := fst d in
          if Nat.eqb (len diff) 0 then
            ret (Some (WithHint (NewCLIError "no changes to commit") stage_hint))
          else
            emit (EvNewClient cfg (ai_NewClient w cfg)) tt ;;
            match ai_NewClient w cfg with
            | Some err =>
                ret (Some (WithCause (NewCLIError "failed to create AI client") err))
            | None =>
                let cfg :=
                  if String.eqb (DefaultModel cfg) EmptyString
                  then {| DefaultModel := prompt.CommitMessageModel |}
                  else cfg in
                Println "Generating commit message with AI..." ;;
                g <- generateCommitMessage 0 (DefaultModel cfg) diff EmptyString ;;
                match snd g with
                | Some err =>
                    ret (Some (WithCause
                                 (NewCLIError "failed to generate commit message") err))
                | None =>
                    interactive_loop autoYes dryRun (DefaultModel cfg) diff
                      stdin (fst g) 1
                end
            end
      end
  end.

(** The [RunE] of [newCommitCmd]: the [--model] flag overrides the
    configured model. *)
Definition RunE (aiCfg : Config) (autoYes dryRun : bool) (model : string)
    (stdin : list ReadResult) : IO (option go_error) :=
  let cfg :=
    if negb (String.eqb model EmptyString)
    then {| DefaultModel := model |}
    else aiCfg in
  runInteractiveCommit cfg autoYes dryRun stdin.

End Workflow.

(** What the loop prints when it presents [message]. *)
Definition display (message : string) : Trace :=
  [ EvStdout ((LF ++ Repeat "=" 70) ++ LF);
    EvStdout (message ++ LF);
    EvStdout (Repeat "=" 70 ++ LF) ].

(** The model the service is built with. *)
Definition effective_model (cfg : Config) : string :=
  if String.eqb (DefaultModel cfg) EmptyString
  then prompt.CommitMessageModel
  else DefaultModel cfg.

(** The steps of a session up to its first presentation, when every one
    of them succeeds and the service answers [text]. *)
Definition opening (cfg : Config) (diff text : string) : Trace :=
  [ EvStdout ("Checking for staged changes..." ++ LF);
    EvGitDiffQuiet (Some (ExitError 1));
    EvStdout ("Generating diff..." ++ LF);
    EvGitDiff (diff, None);
    EvNewClient cfg None;
    EvStdout ("Generating commit message with AI..." ++ LF);
    EvServiceRun 0 (effective_model cfg) prompt.system_prompt
      (prompt.user_prefix ++ diff) (text, None) ].

(** The collaborators let the session reach its first presentation:
    changes are staged, the diff is [diff], the client is created and the
    first call of the service answers [text]. *)
Definition generates (w : World) (cfg : Config) (diff text : string) : Prop :=
  git_diff_staged_quiet w = Some (ExitError 1) /\
  git_diff_staged w = (diff, None) /\
  diff <> EmptyString /\
  ai_NewClient w cfg = None /\
  service_Run w 0 (effective_model cfg) prompt.system_prompt
    (prompt.user_prefix ++ diff) = (text, None).

(* ================================================================== *)
(** ** Worlds to run the workflow in *)

Module Examples.

Definition line (s : string) : ReadResult :=
  {| rd_text := s ++ LF; rd_err := None |}.

Definition sample_diff : string := "diff --git a/x b/x" ++ LF ++ "+foo".

(** Changes are staged, the service answers a first and then a second
    message, the editor rewrites the file, every tool succeeds. *)
Definition happy : World :=
  {| git_diff_staged_quiet := Some (ExitError 1);
     git_diff_staged := (sample_diff, None);
     ai_NewClient := fun _ => None;
     service_Run := fun n _ _ _ =>
       (match n with
        | O => "  feat: add foo" ++ LF
        | S _ => "fix: second try" ++ LF
        end, None);
     getenv_EDITOR := EmptyString;
     os_CreateTemp := None;
     tmp_WriteString := fun _ => None;
     editor_Run := fun _ _ => ("fix: corrected typo", None);
     os_ReadFile := None;
     git_commit := fun _ => None;
     unicode_ToLower := fun s => s |}.

Definition cfg0 : Config := {| DefaultModel := EmptyString |}.

(** The terminal reports the end of its input. *)
Definition end_of_input : ReadResult :=
  {| rd_text := EmptyString; rd_err := Some io_EOF |}.

(** [git diff] cannot run in this directory: exit status 128. *)
Definition git_broken : World :=
  {| git_diff_staged_quiet := Some (ExitError 128);
     git_diff_staged := (EmptyString, Some (ExitError 128));
     ai_NewClient := fun _ => None;
     service_Run := fun _ _ _ _ => (EmptyString, None);
     getenv_EDITOR := EmptyString;
     os_CreateTemp := None;
     tmp_WriteString := fun _ => None;
     editor_Run := fun _ content => (content, None);
     os_ReadFile := None;
     git_commit := fun _ => None;
     unicode_ToLower := fun s => s |}.

(** As [happy], but [git commit] is refused with exit status 1. *)
Definition commit_rejected : World :=
  {| git_diff_staged_quiet := Some (ExitError 1);
     git_diff_staged := (sample_diff, None);
     ai_NewClient := fun _ => None;
     service_Run := fun _ _ _ _ => ("feat: add foo", None);
     getenv_EDITOR := "nano";
     os_CreateTemp := None;
     tmp_WriteString := fun _ => None;
     editor_Run := fun _ content => (content, None);
     os_ReadFile := None;
     git_commit := fun _ => Some (ExitError 1);
     unicode_ToLower := fun s => s |}.

(** As [happy], but the editor named by [EDITOR] cannot be started. *)
Definition no_editor : World :=
  {| git_diff_staged_quiet := Some (ExitError 1);
     git_diff_staged := (sample_diff, None);
     ai_NewClient := fun _ => None;
     service_Run := fun _ _ _ _ => ("feat: add foo", None);
     getenv_EDITOR := "emacs";
     os_CreateTemp := None;
     tmp_WriteString := fun _ => None;
     editor_Run := fun _ content => (content, Some (ErrNew "executable file not found"));
     os_ReadFile := None;
     git_commit := fun _ => None;
     unicode_ToLower := fun s => s |}.

(** The user prompts of the calls of the service, in order. *)
Fixpoint user_prompts (t : Trace) : list string :=
  match t with
  | [] => []
  | EvServiceRun _ _ _ user _ :: t' => user :: user_prompts t'
  | _ :: t' => user_prompts t'
  end.

End Examples.

(* ================================================================== *)
(** ** One turn of the loop *)

Definition say (s : string) : Event := EvStdout (s ++ LF).

Definition commit_result (r : option go_error) : option go_error :=
  match r with
  | Some e => Some (ErrWrap "failed to create commit" e)
  | None => None
  end.

Definition read_failed (e : go_error) : go_error :=
  CLIError "failed to read input" None (Some e).

(** Splits [H : In x l] for a list [l] written out, closing the cases
    whose step is of another kind. *)
Ltac in_explicit H :=
  repeat (destruct H as [H|H];
          [try discriminate H; try (inversion H; subst; auto; fail)|]);
  try (destruct H; fail).

(** Proves [In r space_runes] for a rune written out. *)
Ltac space_rune :=
  vm_compute; repeat (first [left; reflexivity | right]).

(** Runs the logging steps of a goal. *)
Ltac io_steps := cbv [bind Println Print emit ret]; cbn [fst snd app].

Section Turns.

Variable w : World.
Variables (model diff : string).

Abbreviation loop := (interactive_loop w).

Lemma createCommit_eq message :
  createCommit w message =
  ([EvGitCommit message (git_commit w message)],
   commit_result (git_commit w message)).
Proof.
  unfold createCommit. destruct (git_commit w message); reflexivity.
Qed.

(** Dry run: the message is shown and the loop returns [nil]. *)
Lemma loop_dry autoYes stdin message n :
  loop autoYes true model diff stdin message n =
  ((display message ++ [say (LF ++ "(Dry run - no commit created)")])%list, None).
Proof. destruct stdin; reflexivity. Qed.

(** Auto-yes: the message is shown and committed. *)
Lemma loop_auto stdin message n :
  loop true false model diff stdin message n =
  ((display message ++
    [say (LF ++ "Auto-committing...");
     EvGitCommit message (git_commit w message)])%list,
   commit_result (git_commit w message)).
Proof.
  destruct stdin; cbn; rewrite createCommit_eq; reflexivity.
Qed.

(** What every interactive turn starts with. *)
Definition ask (message : string) (rd : ReadResult) : Trace :=
  (display message ++ [EvStdout choice_prompt; EvReadString ChoiceLine rd])%list.

Lemma loop_eof message n :
  loop false false model diff [] message n =
  (ask message (next_line []), Some (read_failed io_EOF)).
Proof. reflexivity. Qed.

Lemma loop_read_error rd rest message n e :
  rd_err rd = Some e ->
  loop false false model diff (rd :: rest) message n =
  (ask message rd, Some (read_failed e)).
Proof. intros H. cbn. rewrite H. reflexivity. Qed.

Lemma loop_approve rd rest message n :
  rd_err rd = None ->
  parse_decision w (rd_text rd) = Approve ->
  loop false false model diff (rd :: rest) message n =
  ((ask message rd ++ [EvGitCommit message (git_commit w message)])%list,
   commit_result (git_commit w message)).
Proof.
  intros H D. cbn. rewrite H, D, createCommit_eq. reflexivity.
Qed.

Lemma loop_cancel rd rest message n :
  rd_err rd = None ->
  parse_decision w (rd_text rd) = Cancel ->
  loop false false model diff (rd :: rest) message n =
  ((ask message rd ++ [say (LF ++ "Commit cancelled.")])%list, None).
Proof. intros H D. cbn. rewrite H, D. reflexivity. Qed.

Lemma loop_invalid rd rest message n :
  rd_err rd = None ->
  parse_decision w (rd_text rd) = Invalid ->
  loop false false model diff (rd :: rest) message n =
  ((ask message rd ++ say (LF ++ "Invalid choice. Please enter y/n/e/c.")
      :: fst (loop false false model diff rest message n))%list,
   snd (loop false false model diff rest message n)).
Proof. intros H D. cbn. rewrite H, D. reflexivity. Qed.

(** A regeneration turn up to the call of the service: the question,
    the feedback line [fb], and the call made with it. *)
Definition regen_call (n : nat) (fb : ReadResult) : Event :=
  let p := prompt.CommitMessage diff (TrimSpace (rd_text fb)) in
  EvServiceRun n model (fst p) (snd p) (service_Run w n model (fst p) (snd p)).

Definition regen_answer (n : nat) (fb : ReadResult) : string * option go_error :=
  let p := prompt.CommitMessage diff (TrimSpace (rd_text fb)) in
  service_Run w n model (fst p) (snd p).

Definition regen_turn (message : string) (n : nat) (rd fb : ReadResult) : Trace :=
  (ask message rd ++
   [EvStdout feedback_prompt; EvReadString FeedbackLine fb;
    say (LF ++ "Regenerating..."); regen_call n fb])%list.

Lemma loop_regen_failed rd rest message n e :
  rd_err rd = None ->
  parse_decision w (rd_text rd) = Regenerate ->
  snd (regen_answer n (next_line rest)) = Some e ->
  loop false false model diff (rd :: rest) message n =
  (regen_turn message n rd (next_line rest),
   Some (CLIError "failed to regenerate message" None
           (Some (ErrWrap "AI request failed" e)))).
Proof.
  intros H D G. unfold regen_answer in G. cbn in *.
  rewrite H, D. cbn. unfold generateCommitMessage. cbn. rewrite G.
  reflexivity.
Qed.

Lemma loop_regen rd rest message n :
  rd_err rd = None ->
  parse_decision w (rd_text rd) = Regenerate ->
  snd (regen_answer n (next_line rest)) = None ->
  loop false false model diff (rd :: rest) message n =
  ((regen_turn message n rd (next_line rest) ++
    fst (loop false false model diff (after_line rest)
           (TrimSpace (fst (regen_answer n (next_line rest)))) (S n)))%list,
   snd (loop false false model diff (after_line rest)
          (TrimSpace (fst (regen_answer n (next_line rest)))) (S n))).
Proof.
  intros H D G. unfold regen_answer in *. cbn in *.
  rewrite H, D. cbn. unfold generateCommitMessage. cbn. rewrite G.
  reflexivity.
Qed.

Lemma loop_edit_failed rd rest message n e :
  rd_err rd = None ->
  parse_decision w (rd_text rd) = Edit ->
  snd (snd (editInEditor w message)) = Some e ->
  loop false false model diff (rd :: rest) message n =
  ((ask message rd ++ fst (editInEditor w message))%list,
   Some (CLIError "failed to open editor" None (Some e))).
Proof.
  intros H D E. cbn -[editInEditor]. rewrite H, D.
  destruct (editInEditor w message) as [t [ed err]].
  cbn in E. subst err. io_steps. rewrite app_nil_r. reflexivity.
Qed.

Lemma loop_edit rd rest message n :
  rd_err rd = None ->
  parse_decision w (rd_text rd) = Edit ->
  snd (snd (editInEditor w message)) = None ->
  let edited := fst (snd (editInEditor w message)) in
  loop false false model diff (rd :: rest) message n =
  ((ask message rd ++ fst (editInEditor w message) ++
    [EvGitCommit edited (git_commit w edited)])%list,
   commit_result (git_commit w edited)).
Proof.
  intros H D E edited. subst edited.
  cbn -[editInEditor createCommit]. rewrite H, D.
  destruct (editInEditor w message) as [t [ed err]].
  cbn in E. subst err. io_steps.
  rewrite createCommit_eq. reflexivity.
Qed.

End Turns.

(* ================================================================== *)
(** ** Induction over the turns of a session *)

Section LoopInduction.

Variable w : World.
Variables (autoYes dryRun : bool) (model diff : string).

Abbreviation loop := (interactive_loop w autoYes dryRun model diff).

Variable P : list ReadResult -> string -> nat -> IO (option go_error) -> Prop.

Hypothesis P_dry : forall stdin message n,
  dryRun = true ->
  P stdin message n
    ((display message ++ [say (LF ++ "(Dry run - no commit created)")])%list, None).

Hypothesis P_auto : forall stdin message n,
  dryRun = false -> autoYes = true ->
  P stdin message n
    ((display message ++
      [say (LF ++ "Auto-committing...");
       EvGitCommit message (git_commit w message)])%list,
     commit_result (git_commit w message)).

Hypothesis P_eof : forall message n,
  dryRun = false -> autoYes = false ->
  P [] message n (ask message (next_line []), Some (read_failed io_EOF)).

Hypothesis P_read_error : forall rd rest message n e,
  dryRun = false -> autoYes = false ->
  rd_err rd = Some e ->
  P (rd :: rest) message n (ask message rd, Some (read_failed e)).

Hypothesis P_approve : forall rd rest message n,
  dryRun = false -> autoYes = false ->
  rd_err rd = None -> parse_decision w (rd_text rd) = Approve ->
  P (rd :: rest) message n
    ((ask message rd ++ [EvGitCommit message (git_commit w message)])%list,
     commit_result (git_commit w message)).

Hypothesis P_cancel : forall rd rest message n,
  dryRun = false -> autoYes = false ->
  rd_err rd = None -> parse_decision w (rd_text rd) = Cancel ->
  P (rd :: rest) message n
    ((ask message rd ++ [say (LF ++ "Commit cancelled.")])%list, None).

Hypothesis P_invalid : forall rd rest message n,
  dryRun = false -> autoYes = false ->
  rd_err rd = None -> parse_decision w (rd_text rd) = Invalid ->
  P rest message n (loop rest message n) ->
  P (rd :: rest) message n
    ((ask message rd ++ say (LF ++ "Invalid choice. Please enter y/n/e/c.")
        :: fst (loop rest message n))%list,
     snd (loop rest message n)).

Hypothesis P_regen_failed : forall rd rest message n e,
  dryRun = false -> autoYes = false ->
  rd_err rd = None -> parse_decision w (rd_text rd) = Regenerate ->
  snd (regen_answer w model diff n (next_line rest)) = Some e ->
  P (rd :: rest) message n
    (regen_turn w model diff message n rd (next_line rest),
     Some (CLIError "failed to regenerate message" None
             (Some (ErrWrap "AI request failed" e)))).

Hypothesis P_regen : forall rd rest message n,
  dryRun = false -> autoYes = false ->
  rd_err rd = None -> parse_decision w (rd_text rd) = Regenerate ->
  snd (regen_answer w model diff n (next_line rest)) = None ->
  let message' := TrimSpace (fst (regen_answer w model diff n (next_line rest))) in
  P (after_line rest) message' (S n) (loop (after_line rest) message' (S n)) ->
  P (rd :: rest) message n
    ((regen_turn w model diff message n rd (next_line rest) ++
      fst (loop (after_line rest) message' (S n)))%list,
     snd (loop (after_line rest) message' (S n))).

Hypothesis P_edit_failed : forall rd rest message n e,
  dryRun = false -> autoYes = false ->
  rd_err rd = None -> parse_decision w (rd_text rd) = Edit ->
  snd (snd (editInEditor w message)) = Some e ->
  P (rd :: rest) message n
    ((ask message rd ++ fst (editInEditor w message))%list,
     Some (CLIError "failed to open editor" None (Some e))).

Hypothesis P_edit : forall rd rest message n,
  dryRun = false -> autoYes = false ->
  rd_err rd = None -> parse_decision w (rd_text rd) = Edit ->
  snd (snd (editInEditor w message)) = None ->
  let edited := fst (snd (editInEditor w message)) in
  P (rd :: rest) message n
    ((ask message rd ++ fst (editInEditor w message) ++
      [EvGitCommit edited (git_commit w edited)])%list,
     commit_result (git_commit w edited)).

Lemma after_line_length (l : list ReadResult) :
  (List.length (after_line l) <= List.length l)%nat.
Proof. destruct l; cbn; lia. Qed.

Lemma loop_bounded_ind : forall k stdin message n,
  (List.length stdin <= k)%nat -> P stdin message n (loop stdin message n).
Proof.
  induction k as [|k IH]; intros stdin message n Hk.
  - destruct dryRun eqn:Hd.
    + rewrite loop_dry. now apply P_dry.
    + destruct autoYes eqn:Ha.
      * rewrite loop_auto. now apply P_auto.
      * destruct stdin; [|cbn in Hk; lia].
        rewrite loop_eof. now apply P_eof.
  - destruct dryRun eqn:Hd.
    { rewrite loop_dry. now apply P_dry. }
    destruct autoYes eqn:Ha.
    { rewrite loop_auto. now apply P_auto. }
    destruct stdin as [|rd rest].
    { rewrite loop_eof. now apply P_eof. }
    cbn in Hk.
    destruct (rd_err rd) as [e|] eqn:He.
    { rewrite (loop_read_error _ _ _ _ _ _ _ _ He). now apply P_read_error. }
    destruct (parse_decision w (rd_text rd)) eqn:D.
    + rewrite (loop_approve _ _ _ _ _ _ _ He D). now apply P_approve.
    + destruct (snd (regen_answer w model diff n (next_line rest))) as [e|] eqn:G.
      * rewrite (loop_regen_failed _ _ _ _ _ _ _ _ He D G).
        now apply P_regen_failed.
      * rewrite (loop_regen _ _ _ _ _ _ _ He D G).
        apply P_regen; auto.
        apply IH. pose proof (after_line_length rest). lia.
    + destruct (snd (snd (editInEditor w message))) as [e|] eqn:E.
      * rewrite (loop_edit_failed _ _ _ _ _ _ _ _ He D E).
        now apply P_edit_failed.
      * rewrite (loop_edit _ _ _ _ _ _ _ He D E). now apply P_edit.
    + rewrite (loop_cancel _ _ _ _ _ _ _ He D). now apply P_cancel.
    + rewrite (loop_invalid _ _ _ _ _ _ _ He D). apply P_invalid; auto.
      apply IH. lia.
Qed.

(** Every property that each kind of turn preserves holds of the loop. *)
Lemma loop_turn_ind : forall stdin message n,
  P stdin message n (loop stdin message n).
Proof.
  intros. apply (loop_bounded_ind (List.length stdin)). lia.
Qed.

End LoopInduction.

(* ================================================================== *)
(** ** The ways a session can go before its first presentation *)

Definition unstaged_error : go_error :=
  CLIError "no staged changes found" (Some stage_hint) None.

Section SessionCases.

Variable w : World.
Variables (cfg : Config) (autoYes dryRun : bool) (stdin : list ReadResult).
Variable P : IO (option go_error) -> Prop.

Let checked : Trace :=
  [ say "Checking for staged changes..."; EvGitDiffQuiet (Some (ExitError 1));
    say "Generating diff..."; EvGitDiff (git_diff_staged w) ].

Hypothesis P_unstaged :
  git_diff_staged_quiet w <> Some (ExitError 1) ->
  P ([ say "Checking for staged changes...";
       EvGitDiffQuiet (git_diff_staged_quiet w) ],
     Some unstaged_error).

Hypothesis P_diff_failed : forall e,
  git_diff_staged_quiet w = Some (ExitError 1) ->
  snd (git_diff_staged w) = Some e ->
  P (checked,
     Some (CLIError "failed to get diff" None
             (Some (ErrWrap "failed to get diff" e)))).

Hypothesis P_empty_diff :
  git_diff_staged_quiet w = Some (ExitError 1) ->
  git_diff_staged w = (EmptyString, None) ->
  P (checked, Some (CLIError "no changes to commit" (Some stage_hint) None)).

Hypothesis P_client_failed : forall e,
  git_diff_staged_quiet w = Some (ExitError 1) ->
  snd (git_diff_staged w) = None ->
  fst (git_diff_staged w) <> EmptyString ->
  ai_NewClient w cfg = Some e ->
  P ((checked ++ [EvNewClient cfg (Some e)])%list,
     Some (CLIError "failed to create AI client" None (Some e))).

Hypothesis P_generation_failed : forall diff r e,
  git_diff_staged_quiet w = Some (ExitError 1) ->
  git_diff_staged w = (diff, None) ->
  diff <> EmptyString ->
  ai_NewClient w cfg = None ->
  service_Run w 0 (effective_model cfg) prompt.system_prompt
    (prompt.user_prefix ++ diff) = r ->
  snd r = Some e ->
  P ((checked ++
      [ EvNewClient cfg None; say "Generating commit message with AI...";
        EvServiceRun 0 (effective_model cfg) prompt.system_prompt
          (prompt.user_prefix ++ diff) r ])%list,
     Some (CLIError "failed to generate commit message" None
             (Some (ErrWrap "AI request failed" e)))).

Hypothesis P_presented : forall diff text,
  generates w cfg diff text ->
  P ((opening cfg diff text ++
      fst (interactive_loop w autoYes dryRun (effective_model cfg) diff
             stdin (TrimSpace text) 1))%list,
     snd (interactive_loop w autoYes dryRun (effective_model cfg) diff
            stdin (TrimSpace text) 1)).

Lemma len_zero s : Nat.eqb (len s) 0 = true <-> s = EmptyString.
Proof. destruct s; cbn; split; congruence. Qed.

Lemma session_cases : P (runInteractiveCommit w cfg autoYes dryRun stdin).
Proof.
  unfold runInteractiveCommit, checkStagedChanges.
  destruct (git_diff_staged_quiet w) as [e0|] eqn:Q.
  2:{ apply P_unstaged. discriminate. }
  assert (Hq : e0 = ExitError 1 \/ e0 <> ExitError 1).
  { destruct e0 as [|c| |]; try (right; discriminate).
    destruct (Z.eq_dec c 1); [left; congruence | right; congruence]. }
  destruct Hq as [->|Hq].
  2:{ assert (Hne : Some e0 <> Some (ExitError 1)) by congruence.
      specialize (P_unstaged Hne).
      destruct e0 as [|c| |]; try exact P_unstaged.
      destruct c as [|[| |]|]; try exact P_unstaged. congruence. }
  unfold getStagedDiff.
  destruct (git_diff_staged w) as [diff [e|]] eqn:G.
  { io_steps. apply (P_diff_failed e); reflexivity. }
  io_steps.
  destruct (Nat.eqb (len diff) 0) eqn:L.
  { apply len_zero in L. subst diff. apply P_empty_diff; reflexivity. }
  assert (Hd : diff <> EmptyString).
  { intros ->. cbn in L. discriminate. }
  destruct (ai_NewClient w cfg) as [e|] eqn:C.
  { io_steps. apply (P_client_failed e); auto. }
  assert (Hm : DefaultModel
                 (if String.eqb (DefaultModel cfg) EmptyString
                  then {| DefaultModel := prompt.CommitMessageModel |}
                  else cfg) = effective_model cfg).
  { unfold effective_model. destruct (String.eqb _ _); reflexivity. }
  rewrite Hm. unfold generateCommitMessage.
  change (prompt.CommitMessage diff EmptyString)
    with (prompt.system_prompt, prompt.user_prefix ++ diff).
  cbn [fst snd].
  destruct (service_Run w 0 (effective_model cfg) prompt.system_prompt
              (prompt.user_prefix ++ diff)) as [text [e|]] eqn:R.
  { io_steps. apply (P_generation_failed diff (text, Some e) e); auto. }
  io_steps.
  apply (P_presented diff text). unfold generates. auto.
Qed.

End SessionCases.

(* ================================================================== *)
(** ** The editor *)

Definition editor_name (w : World) : string :=
  if String.eqb (getenv_EDITOR w) EmptyString then "vim" else getenv_EDITOR w.

(** The five ways [editInEditor] can go. *)
Inductive edit_outcome (w : World) (message : string)
  : IO (string * option go_error) -> Prop :=
| EditCreateFailed e :
    os_CreateTemp w = Some e ->
    edit_outcome w message
      ([EvCreateTemp (Some e)],
       (EmptyString, Some (ErrWrap "failed to create temp file" e)))
| EditWriteFailed e :
    os_CreateTemp w = None ->
    tmp_WriteString w message = Some e ->
    edit_outcome w message
      ([EvCreateTemp None; EvWriteTemp message (Some e); EvRemoveTemp],
       (EmptyString, Some (ErrWrap "failed to write temp file" e)))
| EditEditorFailed content e :
    os_CreateTemp w = None ->
    tmp_WriteString w message = None ->
    editor_Run w (editor_name w) message = (content, Some e) ->
    edit_outcome w message
      ([EvCreateTemp None; EvWriteTemp message None;
        EvEditor (editor_name w) (content, Some e); EvRemoveTemp],
       (EmptyString, Some (ErrWrap "editor failed" e)))
| EditReadFailed content e :
    os_CreateTemp w = None ->
    tmp_WriteString w message = None ->
    editor_Run w (editor_name w) message = (content, None) ->
    os_ReadFile w = Some e ->
    edit_outcome w message
      ([EvCreateTemp None; EvWriteTemp message None;
        EvEditor (editor_name w) (content, None);
        EvReadFile (content, Some e); EvRemoveTemp],
       (EmptyString, Some (ErrWrap "failed to read edited file" e)))
| Edited content :
    os_CreateTemp w = None ->
    tmp_WriteString w message = None ->
    editor_Run w (editor_name w) message = (content, None) ->
    os_ReadFile w = None ->
    edit_outcome w message
      ([EvCreateTemp None; EvWriteTemp message None;
        EvEditor (editor_name w) (content, None);
        EvReadFile (content, None); EvRemoveTemp],
       (content, None)).

Lemma editInEditor_outcome w message :
  edit_outcome w message (editInEditor w message).
Proof.
  unfold editInEditor. fold (editor_name w).
  destruct (os_CreateTemp w) as [e|] eqn:C.
  { io_steps. now constructor. }
  destruct (tmp_WriteString w message) as [e|] eqn:W.
  { io_steps. now constructor. }
  destruct (editor_Run w (editor_name w) message) as [content [e|]] eqn:E.
  { io_steps. now constructor. }
  destruct (os_ReadFile w) as [e|] eqn:R.
  { io_steps. now constructor. }
  io_steps. now constructor.
Qed.

(* ================================================================== *)
(** ** The repository *)

(** What a step does to the history of the repository: a [git commit]
    that succeeds appends its message; the diff commands, the service,
    the terminal and the editor leave the history as it is. *)
Definition step_repo (repo : list string) (e : Event) : list string :=
  match e with
  | EvGitCommit m None => (repo ++ [m])%list
  | _ => repo
  end.

Definition repo_after (repo : list string) (t : Trace) : list string :=
  fold_left step_repo t repo.

Lemma commit_calls_app (a b : Trace) :
  commit_calls (a ++ b)%list = (commit_calls a ++ commit_calls b)%list.
Proof.
  induction a as [|e a IH]; [reflexivity|].
  destruct e; cbn; rewrite ?IH; reflexivity.
Qed.

Lemma repo_after_app repo (a b : Trace) :
  repo_after repo (a ++ b)%list = repo_after (repo_after repo a) b.
Proof. apply fold_left_app. Qed.

Lemma repo_after_no_call t : forall repo,
  commit_calls t = [] -> repo_after repo t = repo.
Proof.
  induction t as [|e t IH]; intros repo H; [reflexivity|].
  destruct e; cbn in *; try discriminate; now apply IH.
Qed.

Lemma commit_calls_edit w m : commit_calls (fst (editInEditor w m)) = [].
Proof. destruct (editInEditor_outcome w m); reflexivity. Qed.

(** How a session ends: without any [git commit], or with one [git
    commit] as its last step, whose result is the session's result. *)
Inductive session_end (w : World) : IO (option go_error) -> Prop :=
| EndNoCommit t res :
    commit_calls t = [] -> session_end w (t, res)
| EndCommit pre m :
    commit_calls pre = [] ->
    session_end w
      ((pre ++ [EvGitCommit m (git_commit w m)])%list,
       commit_result (git_commit w m)).

Lemma session_end_after w pre r :
  commit_calls pre = [] ->
  session_end w r -> session_end w ((pre ++ fst r)%list, snd r).
Proof.
  intros Hp [t res Ht | q m Hq]; cbn [fst snd].
  - apply EndNoCommit. rewrite commit_calls_app, Hp, Ht. reflexivity.
  - rewrite app_assoc. apply EndCommit.
    rewrite commit_calls_app, Hp, Hq. reflexivity.
Qed.

Lemma app_two {A} (a : list A) x y : (a ++ [x; y] = (a ++ [x]) ++ [y])%list.
Proof. now rewrite <- app_assoc. Qed.

Lemma app_cons_mid {A} (a : list A) x t : (a ++ x :: t = (a ++ [x]) ++ t)%list.
Proof. now rewrite <- app_assoc. Qed.

Lemma loop_session_end w autoYes dryRun model diff stdin message n :
  session_end w (interactive_loop w autoYes dryRun model diff stdin message n).
Proof.
  apply loop_turn_ind; intros.
  - now apply EndNoCommit.
  - rewrite app_two. now apply EndCommit.
  - now apply EndNoCommit.
  - now apply EndNoCommit.
  - now apply EndCommit.
  - now apply EndNoCommit.
  - rewrite app_cons_mid. now apply session_end_after.
  - now apply EndNoCommit.
  - now apply session_end_after.
  - apply EndNoCommit. rewrite commit_calls_app, commit_calls_edit. reflexivity.
  - rewrite app_assoc. apply EndCommit.
    rewrite commit_calls_app, commit_calls_edit. reflexivity.
Qed.

Lemma run_session_end w cfg autoYes dryRun stdin :
  session_end w (runInteractiveCommit w cfg autoYes dryRun stdin).
Proof.
  apply session_cases; intros; try now apply EndNoCommit.
  apply session_end_after; [reflexivity|]. apply loop_session_end.
Qed.

(* ================================================================== *)
(** ** Commit: at most once, last, and only on a path that succeeds *)

Lemma commit_calls_mid (pre post : Trace) m e :
  commit_calls (pre ++ EvGitCommit m e :: post)%list <> [].
Proof.
  rewrite commit_calls_app. cbn.
  destruct (commit_calls pre); discriminate.
Qed.

Lemma session_end_last_step w r :
  session_end w r ->
  forall pre m e post,
    fst r = (pre ++ EvGitCommit m e :: post)%list ->
    post = [] /\ e = git_commit w m /\ snd r = commit_result e.
Proof.
  intros [t res Ht | q m' Hq] pre m e post E; cbn [fst snd] in *.
  - subst t. now apply commit_calls_mid in Ht.
  - destruct post as [|x post] using rev_ind.
    + apply app_inj_tail in E as [-> E]. inversion E; subst. auto.
    + clear IHpost.
      change (pre ++ EvGitCommit m e :: post ++ [x])%list
        with (pre ++ (EvGitCommit m e :: post) ++ [x])%list in E.
      rewrite app_assoc in E.
      apply app_inj_tail in E as [-> _].
      now apply commit_calls_mid in Hq.
Qed.

Lemma session_end_repo w r repo :
  session_end w r ->
  (List.length (commit_calls (fst r)) <= 1)%nat /\
  (forall err, snd r = Some err -> repo_after repo (fst r) = repo) /\
  (repo_after repo (fst r) = repo \/
   exists m, commit_calls (fst r) = [m] /\ snd r = None /\
             repo_after repo (fst r) = (repo ++ [m])%list).
Proof.
  intros [t res Ht | q m Hq]; cbn [fst snd].
  - rewrite Ht. cbn. split; [lia|]. split.
    + intros _ _. now apply repo_after_no_call.
    + left. now apply repo_after_no_call.
  - rewrite commit_calls_app, Hq, repo_after_app, (repo_after_no_call q) by auto.
    cbn. split; [lia|].
    destruct (git_commit w m) as [e|]; cbn.
    + split; auto.
    + split; [discriminate|]. right. exists m. auto.
Qed.

Lemma session_end_on_notice w r :
  session_end w r ->
  forall pre text, fst r = (pre ++ [EvStdout text])%list ->
  commit_calls (fst r) = [].
Proof.
  intros [t res Ht | q m Hq] pre text E; cbn [fst] in *.
  - exact Ht.
  - apply app_inj_tail in E as [_ E]. discriminate.
Qed.

(** C2.  In every session [git commit] is called at most once; a call
    of it is the last step of the session and its result is the
    session's result; a session that returns an error leaves the history
    of the repository as it was; the history is left as it was or grows
    by the one committed message, and then the session returns [nil]; a
    session that ends on the cancellation notice has called no commit. *)
Theorem commit_once_last_and_only_on_success :
  forall w cfg autoYes dryRun stdin repo,
    let r := runInteractiveCommit w cfg autoYes dryRun stdin in
    (List.length (commit_calls (fst r)) <= 1)%nat /\
    (forall pre m e post,
        fst r = (pre ++ EvGitCommit m e :: post)%list ->
        post = [] /\ e = git_commit w m /\ snd r = commit_result e) /\
    (forall err, snd r = Some err -> repo_after repo (fst r) = repo) /\
    (repo_after repo (fst r) = repo \/
     exists m, commit_calls (fst r) = [m] /\ snd r = None /\
               repo_after repo (fst r) = (repo ++ [m])%list) /\
    (forall pre,
        fst r = (pre ++ [say (LF ++ "Commit cancelled.")])%list ->
        commit_calls (fst r) = [] /\ repo_after repo (fst r) = repo).
Proof.
  intros w cfg autoYes dryRun stdin repo r.
  pose proof (run_session_end w cfg autoYes dryRun stdin) as E.
  fold r in E.
  destruct (session_end_repo w r repo E) as (H1 & H2 & H3).
  split; [exact H1|]. split; [|split; [exact H2|split; [exact H3|]]].
  - now apply session_end_last_step.
  - intros pre H.
    assert (Hc : commit_calls (fst r) = [])
      by (eapply session_end_on_notice; eauto).
    split; [exact Hc | now apply repo_after_no_call].
Qed.

(* ================================================================== *)
(** ** Sessions that reach a first presentation *)

Lemma generates_unique w cfg diff text diff' text' :
  generates w cfg diff text -> generates w cfg diff' text' ->
  diff' = diff /\ text' = text.
Proof.
  intros (_ & D & _ & _ & R) (_ & D' & _ & _ & R').
  rewrite D in D'. inversion D'; subst diff'.
  rewrite R in R'. inversion R'. auto.
Qed.

Lemma run_presented w cfg autoYes dryRun stdin diff text :
  generates w cfg diff text ->
  runInteractiveCommit w cfg autoYes dryRun stdin =
  ((opening cfg diff text ++
    fst (interactive_loop w autoYes dryRun (effective_model cfg) diff
           stdin (TrimSpace text) 1))%list,
   snd (interactive_loop w autoYes dryRun (effective_model cfg) diff
          stdin (TrimSpace text) 1)).
Proof.
  revert diff text.
  apply session_cases.
  - intros H diff text (Q & _). congruence.
  - intros e _ H diff text (_ & D & _). rewrite D in H. discriminate.
  - intros _ H diff text (_ & D & N & _). rewrite D in H. congruence.
  - intros e _ _ _ H diff text (_ & _ & _ & C & _). congruence.
  - intros diff' r e _ D' _ _ R E diff text (_ & D & _ & _ & R').
    rewrite D in D'. inversion D'; subst diff'.
    rewrite R' in R. subst r. discriminate.
  - intros diff' text' G' diff text G.
    destruct (generates_unique _ _ _ _ _ _ G G') as [-> ->]. reflexivity.
Qed.

Definition no_read (t : Trace) : Prop := existsb is_read t = false.

(** C1.  With the dry-run flag set, whatever the auto-approve flag:
    each time the loop presents a message it prints the message and the
    dry-run notice and returns [nil]; no session calls [git commit] or
    reads the terminal; and a session whose collaborators let it reach
    its first message prints that message, returns [nil] and exits 0. *)
Theorem dry_run_shows_and_exits :
  forall w cfg autoYes stdin,
    (forall model diff rest message n,
        interactive_loop w autoYes true model diff rest message n =
        ((display message ++ [say (LF ++ "(Dry run - no commit created)")])%list,
         None)) /\
    let r := runInteractiveCommit w cfg autoYes true stdin in
    commit_calls (fst r) = [] /\
    no_read (fst r) /\
    (forall diff text,
        generates w cfg diff text ->
        r = ((opening cfg diff text ++ display (TrimSpace text) ++
              [say (LF ++ "(Dry run - no commit created)")])%list, None) /\
        exit_code (snd r) = 0%Z).
Proof.
  intros w cfg autoYes stdin. split.
  { intros. apply loop_dry. }
  intros r. subst r. split; [|split].
  - apply session_cases; intros; try reflexivity.
    rewrite loop_dry. reflexivity.
  - apply session_cases; intros; try reflexivity.
    rewrite loop_dry. reflexivity.
  - intros diff text G.
    rewrite (run_presented _ _ _ _ _ _ _ G), loop_dry. split; reflexivity.
Qed.

(* ================================================================== *)
(** ** Auto-approve *)

Fixpoint last_byte (s : string) : option ascii :=
  match s with
  | EmptyString => None
  | String c EmptyString => Some c
  | String _ r => last_byte r
  end.

Lemma last_byte_append s c : last_byte (s ++ String c EmptyString) = Some c.
Proof.
  induction s as [|a s IH]; [reflexivity|].
  cbn [append last_byte]. rewrite IH.
  destruct s; reflexivity.
Qed.

Lemma println_not_choice_prompt s : EvStdout (s ++ LF) <> EvStdout choice_prompt.
Proof.
  intros H. inversion H as [E].
  apply (f_equal last_byte) in E.
  unfold LF at 1 in E. rewrite last_byte_append in E.
  vm_compute in E. discriminate.
Qed.

(** C6.  With auto-approve set and dry-run not set, a session whose
    first generation succeeds with [text] shows the message, announces
    the commit and calls [git commit] once, with [TrimSpace text]; it
    reads nothing from the terminal and never prints the choice prompt;
    its result is the result of that commit.  The committed message is
    [text] without the white space around it: [text] is the message
    between two runs of white-space runes, and the message neither
    starts nor ends with a white-space rune. *)
Theorem auto_approve_commits_trimmed_message :
  forall w cfg stdin diff text,
    generates w cfg diff text ->
    let r := runInteractiveCommit w cfg true false stdin in
    let message := TrimSpace text in
    fst r = (opening cfg diff text ++ display message ++
             [say (LF ++ "Auto-committing...");
              EvGitCommit message (git_commit w message)])%list /\
    snd r = commit_result (git_commit w message) /\
    commit_calls (fst r) = [message] /\
    no_read (fst r) /\
    ~ In (EvStdout choice_prompt) (fst r) /\
    (exists pre post, spaces pre /\ spaces post /\ text = pre ++ message ++ post) /\
    (forall rune rest, In rune space_runes -> message <> rune ++ rest) /\
    (forall rune init, In rune space_runes -> message <> init ++ rune).
Proof.
  intros w cfg stdin diff text G r message. subst r message.
  rewrite (run_presented _ _ _ _ _ _ _ G), loop_auto. cbn [fst snd].
  split; [reflexivity|]. split; [reflexivity|]. split; [reflexivity|].
  split; [reflexivity|].
  split; [|split; [apply TrimSpace_split | apply TrimSpace_trimmed]].
  intros H. apply in_app_or in H as [H|H].
  - cbn in H. repeat (destruct H as [H|H]; [discriminate H|]). exact H.
  - apply in_app_or in H as [H|H].
    + cbn in H.
      destruct H as [H|[H|[H|[]]]]; try discriminate H.
      now apply println_not_choice_prompt in H.
    + cbn in H. destruct H as [H|[H|[]]]; discriminate H.
Qed.

(* ================================================================== *)
(** ** Edit *)

(** C9.  On the decision Edit: when the temporary file is created and
    written, the editor ends without error leaving [edited] in it and
    the file is read back, the turn is the editor's steps followed by
    one [git commit] of [edited], byte for byte, and nothing after it
    (no presentation, no prompt, no read); when [editInEditor] fails
    with [e], the session returns the error [failed to open editor]
    with cause [e] and calls no commit. *)
Theorem edit_commits_edited_text :
  forall w model diff rd rest message n,
    rd_err rd = None ->
    parse_decision w (rd_text rd) = Edit ->
    let r := interactive_loop w false false model diff (rd :: rest) message n in
    (forall edited,
        os_CreateTemp w = None ->
        tmp_WriteString w message = None ->
        editor_Run w (editor_name w) message = (edited, None) ->
        os_ReadFile w = None ->
        r = ((ask message rd ++
              [EvCreateTemp None; EvWriteTemp message None;
               EvEditor (editor_name w) (edited, None);
               EvReadFile (edited, None); EvRemoveTemp;
               EvGitCommit edited (git_commit w edited)])%list,
             commit_result (git_commit w edited))) /\
    (forall e,
        snd (snd (editInEditor w message)) = Some e ->
        snd r = Some (CLIError "failed to open editor" None (Some e)) /\
        commit_calls (fst r) = [] /\
        fst r = (ask message rd ++ fst (editInEditor w message))%list).
Proof.
  intros w model diff rd rest message n He D r. subst r. split.
  - intros edited C W E R.
    assert (O : editInEditor w message =
                ([EvCreateTemp None; EvWriteTemp message None;
                  EvEditor (editor_name w) (edited, None);
                  EvReadFile (edited, None); EvRemoveTemp],
                 (edited, None))).
    { destruct (editInEditor_outcome w message); congruence. }
    rewrite (loop_edit _ _ _ _ _ _ _ He D); rewrite O; reflexivity.
  - intros e E.
    rewrite (loop_edit_failed _ _ _ _ _ _ _ _ He D E). cbn [fst snd].
    split; [reflexivity|]. split; [|reflexivity].
    rewrite commit_calls_app, commit_calls_edit. reflexivity.
Qed.

(* ================================================================== *)
(** ** Regeneration *)

Lemma loop_regen_starts w model diff rd rest message n :
  rd_err rd = None ->
  parse_decision w (rd_text rd) = Regenerate ->
  exists t,
    fst (interactive_loop w false false model diff (rd :: rest) message n) =
    (regen_turn w model diff message n rd (next_line rest) ++ t)%list.
Proof.
  intros He D.
  destruct (snd (regen_answer w model diff n (next_line rest))) as [e|] eqn:G.
  - rewrite (loop_regen_failed _ _ _ _ _ _ _ _ He D G).
    exists []. cbn [fst]. now rewrite app_nil_r.
  - rewrite (loop_regen _ _ _ _ _ _ _ He D G). eexists. reflexivity.
Qed.

(** C10.  On the decision Regenerate the service is called with the
    prompt composed from the diff and [TrimSpace] of the feedback line,
    whatever that read returned; a feedback line of white space only
    gives the empty feedback, and the user prompt of the call is then
    the prefix and the diff, with no feedback block. *)
Theorem feedback_is_trimmed_before_composition :
  forall w model diff rd rest message n,
    rd_err rd = None ->
    parse_decision w (rd_text rd) = Regenerate ->
    let fb := next_line rest in
    let p := prompt.CommitMessage diff (TrimSpace (rd_text fb)) in
    (exists t,
        fst (interactive_loop w false false model diff (rd :: rest) message n) =
        (ask message rd ++
         [EvStdout feedback_prompt; EvReadString FeedbackLine fb;
          say (LF ++ "Regenerating...");
          EvServiceRun n model (fst p) (snd p)
            (service_Run w n model (fst p) (snd p))] ++ t)%list) /\
    (spaces (rd_text fb) ->
     TrimSpace (rd_text fb) = EmptyString /\
     p = (prompt.system_prompt, prompt.user_prefix ++ diff)).
Proof.
  intros w model diff rd rest message n He D fb p. split.
  - destruct (loop_regen_starts w model diff rd rest message n He D) as [t E].
    exists t. rewrite E. unfold regen_turn. rewrite <- app_assoc. reflexivity.
  - intros S. subst p. rewrite (TrimSpace_spaces _ S). split; reflexivity.
Qed.

(* ================================================================== *)
(** ** The prompt of every generation round *)

(** A monitor over the trace.  [fb] is the feedback line read since the
    last call of the service, if any.  Every call of the service must
    carry the prompt composed from [diff] and that feedback alone (the
    empty feedback when no line was read); only the first call of the
    session comes without a feedback line; and a call uses its feedback
    up: the next call sees only what is read after it. *)
Fixpoint prompts_follow (diff : string) (fb : option string) (t : Trace) : Prop :=
  match t with
  | [] => True
  | EvReadString FeedbackLine rd :: t' =>
      prompts_follow diff (Some (TrimSpace (rd_text rd))) t'
  | EvServiceRun n _ system user _ :: t' =>
      (system, user) =
        prompt.CommitMessage diff
          (match fb with Some f => f | None => EmptyString end) /\
      (n = O <-> fb = None) /\
      prompts_follow diff None t'
  | _ :: t' => prompts_follow diff fb t'
  end.

(** Steps the monitor passes over. *)
Definition quiet (e : Event) : bool :=
  match e with
  | EvServiceRun _ _ _ _ _ => false
  | EvReadString FeedbackLine _ => false
  | _ => true
  end.

(** The number of times the diff is fetched. *)
Fixpoint diff_fetches (t : Trace) : nat :=
  match t with
  | [] => O
  | EvGitDiff _ :: t' => S (diff_fetches t')
  | _ :: t' => diff_fetches t'
  end.

Lemma prompts_follow_quiet diff (a b : Trace) : forall fb,
  forallb quiet a = true ->
  prompts_follow diff fb b -> prompts_follow diff fb (a ++ b)%list.
Proof.
  induction a as [|e a IH]; intros fb Q H; [exact H|].
  cbn in Q. apply andb_prop in Q as [Qe Qa].
  destruct e; try destruct site; try discriminate; cbn; now apply IH.
Qed.

Lemma quiet_edit w m : forallb quiet (fst (editInEditor w m)) = true.
Proof. destruct (editInEditor_outcome w m); reflexivity. Qed.

Lemma diff_fetches_app (a b : Trace) :
  diff_fetches (a ++ b)%list = (diff_fetches a + diff_fetches b)%nat.
Proof.
  induction a as [|e a IH]; [reflexivity|].
  destruct e; cbn; rewrite ?IH; reflexivity.
Qed.

Lemma diff_fetches_edit w m : diff_fetches (fst (editInEditor w m)) = O.
Proof. destruct (editInEditor_outcome w m); reflexivity. Qed.

Lemma loop_diff_fetches w autoYes dryRun model diff stdin message n :
  diff_fetches
    (fst (interactive_loop w autoYes dryRun model diff stdin message n)) = O.
Proof.
  apply loop_turn_ind; intros; cbn [fst];
    rewrite ?diff_fetches_app, ?diff_fetches_edit;
    try reflexivity; cbn [fst snd diff_fetches say regen_call Nat.add]; auto.
Qed.

Lemma loop_prompts_follow w autoYes dryRun model diff stdin message n :
  prompts_follow diff None
    (fst (interactive_loop w autoYes dryRun model diff stdin message (S n))).
Proof.
  enough (H : forall k, k <> O ->
                prompts_follow diff None
                  (fst (interactive_loop w autoYes dryRun model diff stdin message k)))
    by (apply H; discriminate).
  apply (loop_turn_ind w autoYes dryRun model diff
           (fun _ _ k r => k <> O -> prompts_follow diff None (fst r)));
    intros; cbn [fst]; try (cbn; exact I).
  - rewrite app_cons_mid.
    apply prompts_follow_quiet; [reflexivity | auto].
  - unfold regen_turn.
    apply prompts_follow_quiet; [reflexivity|]. cbn.
    repeat split; auto; try discriminate. intros ->. congruence.
  - unfold regen_turn. rewrite <- app_assoc.
    apply prompts_follow_quiet; [reflexivity|]. cbn.
    repeat split; auto; try discriminate. intros ->. congruence.
  - apply prompts_follow_quiet; [reflexivity|].
    rewrite <- (app_nil_r (fst (editInEditor w message0))).
    apply prompts_follow_quiet; [apply quiet_edit | exact I].
  - apply prompts_follow_quiet; [reflexivity|].
    apply prompts_follow_quiet; [apply quiet_edit | exact I].
Qed.

Lemma session_prompts_follow w cfg autoYes dryRun stdin :
  let r := runInteractiveCommit w cfg autoYes dryRun stdin in
  (diff_fetches (fst r) <= 1)%nat /\
  (forall x, In (EvGitDiff x) (fst r) -> x = git_diff_staged w) /\
  prompts_follow (fst (git_diff_staged w)) None (fst r).
Proof.
  intros r. subst r.
  apply session_cases.
  - intros _. cbn. repeat split; auto. intros x Hin. in_explicit Hin.
  - intros e _ _. cbn. repeat split; auto. intros x Hin. in_explicit Hin.
  - intros _ _. cbn. repeat split; auto. intros x Hin. in_explicit Hin.
  - intros e _ _ _ _. cbn. repeat split; auto. intros x Hin. in_explicit Hin.
  - intros diff r e _ D _ _ _ _. rewrite D. cbn. repeat split; auto.
    intros x Hin. in_explicit Hin.
  - intros diff text (Q & D & N & C & R). rewrite D. cbn [fst].
    rewrite diff_fetches_app, loop_diff_fetches. split; [cbn; lia|]. split.
    + intros x Hin. apply in_app_or in Hin as [Hin|Hin].
      * cbn in Hin. in_explicit Hin.
      * exfalso. revert Hin.
        generalize (loop_diff_fetches w autoYes dryRun (effective_model cfg)
                      diff stdin (TrimSpace text) 1).
        generalize (fst (interactive_loop w autoYes dryRun (effective_model cfg)
                           diff stdin (TrimSpace text) 1)).
        induction t as [|e t IH]; cbn; [tauto|].
        intros F [H|H]; [subst e; discriminate|].
        destruct e; try discriminate; auto.
    + unfold opening.
      cbn -[interactive_loop]. repeat split; auto.
      apply loop_prompts_follow.
Qed.

(** The prompts of the calls of the service, in order, and the feedback
    lines read, trimmed, in order. *)
Fixpoint service_prompts (t : Trace) : list (string * string) :=
  match t with
  | [] => []
  | EvServiceRun _ _ system user _ :: t' => (system, user) :: service_prompts t'
  | _ :: t' => service_prompts t'
  end.

Fixpoint feedbacks_read (t : Trace) : list string :=
  match t with
  | [] => []
  | EvReadString FeedbackLine rd :: t' => TrimSpace (rd_text rd) :: feedbacks_read t'
  | _ :: t' => feedbacks_read t'
  end.

Lemma service_prompts_app (a b : Trace) :
  service_prompts (a ++ b)%list = (service_prompts a ++ service_prompts b)%list.
Proof.
  induction a as [|e a IH]; [reflexivity|].
  destruct e; cbn; rewrite ?IH; reflexivity.
Qed.

Lemma feedbacks_read_app (a b : Trace) :
  feedbacks_read (a ++ b)%list = (feedbacks_read a ++ feedbacks_read b)%list.
Proof.
  induction a as [|e a IH]; [reflexivity|].
  destruct e; try destruct site; cbn; rewrite ?IH; reflexivity.
Qed.

Lemma no_prompts_edit w message :
  service_prompts (fst (editInEditor w message)) = [] /\
  feedbacks_read (fst (editInEditor w message)) = [].
Proof. destruct (editInEditor_outcome w message); split; reflexivity. Qed.

Lemma regen_turn_prompts w model diff message n rd fb :
  service_prompts (regen_turn w model diff message n rd fb) =
    [prompt.CommitMessage diff (TrimSpace (rd_text fb))] /\
  feedbacks_read (regen_turn w model diff message n rd fb) =
    [TrimSpace (rd_text fb)].
Proof.
  unfold regen_turn. rewrite service_prompts_app, feedbacks_read_app.
  split; [|destruct rd; reflexivity].
  reflexivity.
Qed.

Lemma ask_prompts message rd :
  service_prompts (ask message rd) = [] /\ feedbacks_read (ask message rd) = [].
Proof. split; reflexivity. Qed.

(** In the loop every feedback line read is followed by a call of the
    service with the prompt composed from the diff and that line, and
    there is no other call. *)
Lemma loop_service_prompts w autoYes dryRun model diff stdin message n :
  let t := fst (interactive_loop w autoYes dryRun model diff stdin message n) in
  service_prompts t = map (prompt.CommitMessage diff) (feedbacks_read t).
Proof.
  cbv zeta.
  apply (loop_turn_ind w autoYes dryRun model diff
           (fun _ _ _ r =>
              service_prompts (fst r) =
              map (prompt.CommitMessage diff) (feedbacks_read (fst r))));
    intros; cbn [fst]; try reflexivity;
    rewrite ?service_prompts_app, ?feedbacks_read_app, ?map_app;
    cbn [service_prompts feedbacks_read say];
    repeat match goal with
           | |- context [regen_turn ?a ?b ?c ?d ?k ?x ?y] =>
               destruct (regen_turn_prompts a b c d k x y) as [-> ->]
           | |- context [editInEditor ?a ?b] =>
               destruct (no_prompts_edit a b) as [-> ->]
           | IH : service_prompts _ = _ |- _ => rewrite IH; clear IH
           end;
    reflexivity.
Qed.

Lemma session_service_prompts w cfg autoYes dryRun stdin diff :
  git_diff_staged_quiet w = Some (ExitError 1) ->
  git_diff_staged w = (diff, None) ->
  diff <> EmptyString ->
  ai_NewClient w cfg = None ->
  let t := fst (runInteractiveCommit w cfg autoYes dryRun stdin) in
  diff_fetches t = 1%nat /\
  service_prompts t =
    map (prompt.CommitMessage diff) (EmptyString :: feedbacks_read t).
Proof.
  intros Q D N C. cbv zeta.
  apply session_cases.
  - intros Q'. congruence.
  - intros e _ D'. rewrite D in D'. discriminate.
  - intros _ D'. rewrite D in D'. congruence.
  - intros e _ _ _ C'. congruence.
  - intros diff' r e _ D' _ _ _ _. rewrite D in D'. inversion D'; subst diff'.
    rewrite D. split; reflexivity.
  - intros diff' text (_ & D' & _). rewrite D in D'. inversion D'; subst diff'.
    cbn [fst].
    rewrite diff_fetches_app, loop_diff_fetches, service_prompts_app,
      feedbacks_read_app, loop_service_prompts.
    split; reflexivity.
Qed.

(** C5.  In every session the diff is fetched at most once, and every
    call of the service carries the prompt composed from that diff and
    from the feedback line read in the same round only: the first call
    has the empty feedback, every later call comes after a feedback line
    and uses that line, trimmed, and nothing read before the call that
    precedes it.  The calls are made: once the diff is in hand and the
    client created, the diff was fetched exactly once and the prompts
    of the calls of the session are, in order, the prompt composed from
    the diff with no feedback and then, for each feedback line read,
    the prompt composed from the same diff and that line alone.  And a
    Regenerate round is: the question, the read of the next line of the
    terminal, and a call of the service with the prompt composed from
    the loop's diff and that line, trimmed; when the service answers,
    the loop goes on with the same diff and the new message, and when
    it fails the round ends the session. *)
Theorem prompts_use_the_diff_and_the_round_feedback :
  forall w cfg autoYes dryRun stdin,
    let r := runInteractiveCommit w cfg autoYes dryRun stdin in
    (diff_fetches (fst r) <= 1)%nat /\
    (forall x, In (EvGitDiff x) (fst r) -> x = git_diff_staged w) /\
    prompts_follow (fst (git_diff_staged w)) None (fst r) /\
    (forall diff,
        git_diff_staged_quiet w = Some (ExitError 1) ->
        git_diff_staged w = (diff, None) ->
        diff <> EmptyString ->
        ai_NewClient w cfg = None ->
        diff_fetches (fst r) = 1%nat /\
        service_prompts (fst r) =
          map (prompt.CommitMessage diff) (EmptyString :: feedbacks_read (fst r))) /\
    (forall model diff rd rest message n,
        rd_err rd = None ->
        parse_decision w (rd_text rd) = Regenerate ->
        let fb := next_line rest in
        let p := prompt.CommitMessage diff (TrimSpace (rd_text fb)) in
        let answer := service_Run w n model (fst p) (snd p) in
        let round :=
          (ask message rd ++
           [EvStdout feedback_prompt; EvReadString FeedbackLine fb;
            say (LF ++ "Regenerating...");
            EvServiceRun n model (fst p) (snd p) answer])%list in
        let turn :=
          interactive_loop w false false model diff (rd :: rest) message n in
        (snd answer = None ->
         turn =
         ((round ++
           fst (interactive_loop w false false model diff (after_line rest)
                  (TrimSpace (fst answer)) (S n)))%list,
          snd (interactive_loop w false false model diff (after_line rest)
                 (TrimSpace (fst answer)) (S n)))) /\
        (forall e,
            snd answer = Some e ->
            turn =
            (round,
             Some (CLIError "failed to regenerate message" None
                     (Some (ErrWrap "AI request failed" e)))))).
Proof.
  intros w cfg autoYes dryRun stdin r. subst r.
  destruct (session_prompts_follow w cfg autoYes dryRun stdin) as (F & G & M).
  split; [exact F|]. split; [exact G|]. split; [exact M|]. split.
  - intros diff Q D N C.
    exact (session_service_prompts w cfg autoYes dryRun stdin diff Q D N C).
  - intros model diff rd rest message n He D fb p answer round turn.
    subst turn round answer p fb. split.
    + intros A. exact (loop_regen w model diff rd rest message n He D A).
    + intros e A. exact (loop_regen_failed w model diff rd rest message n e He D A).
Qed.

(* ================================================================== *)
(** ** Failures *)

(** The failure a step reports, with the phase the workflow names when
    it returns it.  The staged-changes check and the read of the
    feedback line are not listed. *)
Definition failure_of (ev : Event) : option (string * go_error) :=
  match ev with
  | EvGitDiff (_, Some e) => Some ("failed to get diff", e)
  | EvNewClient _ (Some e) => Some ("failed to create AI client", e)
  | EvServiceRun O _ _ _ (_, Some e) => Some ("failed to generate commit message", e)
  | EvServiceRun (S _) _ _ _ (_, Some e) => Some ("failed to regenerate message", e)
  | EvReadString ChoiceLine {| rd_text := _; rd_err := Some e |} =>
      Some ("failed to read input", e)
  | EvCreateTemp (Some e) => Some ("failed to open editor", e)
  | EvWriteTemp _ (Some e) => Some ("failed to open editor", e)
  | EvEditor _ (_, Some e) => Some ("failed to open editor", e)
  | EvReadFile (_, Some e) => Some ("failed to open editor", e)
  | EvGitCommit _ (Some e) => Some ("failed to create commit", e)
  | _ => None
  end.

(** The session returns an error that names [phase] and has [e] on its
    chain of causes. *)
Definition reported (r : IO (option go_error)) (phase : string) (e : go_error) : Prop :=
  exists err, snd r = Some err /\ error_text err = phase /\ In e (unwrap_chain err).

(** Every failure among the steps of [r] is reported by [r]. *)
Definition failures_reported (r : IO (option go_error)) : Prop :=
  forall ev phase e,
    In ev (fst r) -> failure_of ev = Some (phase, e) -> reported r phase e.

Lemma unwrap_chain_self e : In e (unwrap_chain e).
Proof. destruct e as [| | |? ? [c|]]; cbn; auto. Qed.

#[local] Hint Resolve unwrap_chain_self : core.

Lemma reported_here phase e err t :
  error_text err = phase -> In e (unwrap_chain err) ->
  reported (t, Some err) phase e.
Proof. intros. exists err. auto. Qed.

Lemma failure_of_ask m rd ev phase e :
  In ev (ask m rd) -> failure_of ev = Some (phase, e) ->
  rd_err rd = Some e /\ phase = "failed to read input".
Proof.
  intros Hin F. unfold ask, display in Hin. cbn [app] in Hin.
  repeat (destruct Hin as [Hin|Hin]; [subst ev; try discriminate F|]);
    [|destruct Hin].
  destruct rd as [txt [e'|]]; cbn in F; inversion F; subst. auto.
Qed.

Lemma failure_of_edit w m ev phase e :
  In ev (fst (editInEditor w m)) -> failure_of ev = Some (phase, e) ->
  phase = "failed to open editor" /\
  exists msg, snd (snd (editInEditor w m)) = Some (ErrWrap msg e).
Proof.
  intros Hin F.
  destruct (editInEditor_outcome w m); cbn [fst snd] in *;
    repeat (destruct Hin as [Hin|Hin];
            [subst ev; try discriminate F; inversion F; subst; eauto|]);
    destruct Hin.
Qed.

Lemma failure_of_commit w m phase e :
  failure_of (EvGitCommit m (git_commit w m)) = Some (phase, e) ->
  phase = "failed to create commit" /\
  commit_result (git_commit w m) = Some (ErrWrap "failed to create commit" e).
Proof.
  destruct (git_commit w m); cbn; intros F; inversion F; subst. auto.
Qed.

Lemma reported_commit w m t phase e :
  failure_of (EvGitCommit m (git_commit w m)) = Some (phase, e) ->
  reported (t, commit_result (git_commit w m)) phase e.
Proof.
  intros F. apply failure_of_commit in F as [-> E].
  exists (ErrWrap "failed to create commit" e). cbn [snd].
  rewrite E. cbn. repeat split; auto.
Qed.

Lemma failures_reported_after (pre : Trace) r :
  (forall ev, In ev pre -> failure_of ev = None) ->
  failures_reported r -> failures_reported ((pre ++ fst r)%list, snd r).
Proof.
  intros Q H ev phase e Hin F. cbn [fst] in Hin.
  apply in_app_or in Hin as [Hin|Hin].
  - rewrite (Q ev Hin) in F. discriminate.
  - destruct (H ev phase e Hin F) as (err & E & T & C).
    exists err. auto.
Qed.

Lemma failure_of_ask_ok m rd ev :
  rd_err rd = None -> In ev (ask m rd) -> failure_of ev = None.
Proof.
  intros He Hin. destruct (failure_of ev) as [[phase e]|] eqn:F; [|reflexivity].
  destruct (failure_of_ask _ _ _ _ _ Hin F). congruence.
Qed.

Lemma loop_failures_reported w autoYes dryRun model diff stdin message n :
  failures_reported
    (interactive_loop w autoYes dryRun model diff stdin message (S n)).
Proof.
  enough (H : forall k, k <> O ->
                failures_reported
                  (interactive_loop w autoYes dryRun model diff stdin message k))
    by (apply H; discriminate).
  apply (loop_turn_ind w autoYes dryRun model diff
           (fun _ _ k r => k <> O -> failures_reported r)).
  - intros _ m k _ _ ev phase e Hin F. cbn in Hin.
    repeat (destruct Hin as [Hin|Hin]; [subst ev; discriminate F|]).
    destruct Hin.
  - intros _ m k _ _ _ ev phase e Hin F. cbn in Hin.
    repeat (destruct Hin as [Hin|Hin]; [subst ev; try discriminate F|]);
      [|destruct Hin].
    now apply reported_commit.
  - intros m k _ _ _ ev phase e Hin F.
    destruct (failure_of_ask _ _ _ _ _ Hin F) as [E ->].
    cbn in E. inversion E; subst e.
    apply reported_here; cbn; auto.
  - intros rd rest m k e0 _ _ He _ ev phase e Hin F.
    destruct (failure_of_ask _ _ _ _ _ Hin F) as [E ->].
    assert (e = e0) by congruence. subst e0.
    apply reported_here; cbn; auto.
  - intros rd rest m k _ _ He D _ ev phase e Hin F.
    apply in_app_or in Hin as [Hin|Hin].
    + rewrite (failure_of_ask_ok _ _ _ He Hin) in F. discriminate.
    + destruct Hin as [<-|[]]. now apply reported_commit.
  - intros rd rest m k _ _ He D _ ev phase e Hin F.
    apply in_app_or in Hin as [Hin|Hin].
    + rewrite (failure_of_ask_ok _ _ _ He Hin) in F. discriminate.
    + destruct Hin as [<-|[]]. discriminate F.
  - intros rd rest m k _ _ He D IH Hk.
    rewrite app_cons_mid. apply failures_reported_after; [|auto].
    intros ev Hin. apply in_app_or in Hin as [Hin|Hin].
    + now apply (failure_of_ask_ok m rd).
    + destruct Hin as [<-|[]]. reflexivity.
  - intros rd rest m k e0 _ _ He D G Hk ev phase e Hin F.
    cbn [fst] in Hin. unfold regen_turn in Hin.
    apply in_app_or in Hin as [Hin|Hin].
    + rewrite (failure_of_ask_ok _ _ _ He Hin) in F. discriminate.
    + repeat (destruct Hin as [Hin|Hin]; [subst ev; try discriminate F|]);
        [|destruct Hin].
      unfold regen_call in F. unfold regen_answer in G.
      destruct k as [|k]; [congruence|].
      cbn [fst snd] in *.
      destruct (service_Run w (S k) model _ _) as [txt [e1|]];
        cbn in F, G; inversion F; inversion G; subst.
      apply reported_here; cbn; auto.
  - intros rd rest m k _ _ He D G message' IH Hk.
    apply failures_reported_after; [|apply IH; discriminate].
    intros ev Hin. unfold regen_turn in Hin.
    apply in_app_or in Hin as [Hin|Hin].
    + now apply (failure_of_ask_ok m rd).
    + repeat (destruct Hin as [Hin|Hin]; [subst ev; try reflexivity|]);
        [|destruct Hin].
      unfold regen_call. unfold regen_answer in G. cbn [fst snd] in *.
      destruct k as [|k]; [congruence|].
      destruct (service_Run w (S k) model _ _) as [txt [e1|]];
        cbn in G; [discriminate | reflexivity].
  - intros rd rest m k e0 _ _ He D E _ ev phase e Hin F.
    apply in_app_or in Hin as [Hin|Hin].
    + rewrite (failure_of_ask_ok _ _ _ He Hin) in F. discriminate.
    + destruct (failure_of_edit _ _ _ _ _ Hin F) as [-> [msg E']].
      rewrite E in E'. inversion E'; subst e0.
      apply reported_here; cbn; auto.
  - intros rd rest m k _ _ He D E edited _ ev phase e Hin F.
    apply in_app_or in Hin as [Hin|Hin].
    + rewrite (failure_of_ask_ok _ _ _ He Hin) in F. discriminate.
    + apply in_app_or in Hin as [Hin|Hin].
      * destruct (failure_of_edit _ _ _ _ _ Hin F) as [_ [msg E']].
        congruence.
      * destruct Hin as [<-|[]]. now apply reported_commit.
Qed.

(** C3, as amended.  In every session, a failure of the diff command, of
    the creation of the client, of a call of the service, of the read of
    the decision line, of a step of the editor or of [git commit] ends
    the session with an error that names the failed phase and keeps the
    failure on its chain of causes; when the staged-changes check does
    not report staged changes the session ends with an error; and the
    error of the read of the feedback line is ignored: the service is
    called with what was read, and when it answers the loop goes on. *)
Theorem failures_are_fatal_and_keep_their_cause :
  forall w cfg autoYes dryRun stdin,
    let r := runInteractiveCommit w cfg autoYes dryRun stdin in
    (forall ev phase e,
        In ev (fst r) -> failure_of ev = Some (phase, e) ->
        exists err,
          snd r = Some err /\ error_text err = phase /\ In e (unwrap_chain err)) /\
    (git_diff_staged_quiet w <> Some (ExitError 1) -> exists err, snd r = Some err) /\
    (forall model diff rd rest message n e,
        rd_err rd = None ->
        parse_decision w (rd_text rd) = Regenerate ->
        rd_err (next_line rest) = Some e ->
        let fb := next_line rest in
        let turn := interactive_loop w false false model diff (rd :: rest) message n in
        (exists t, fst turn = (regen_turn w model diff message n rd fb ++ t)%list) /\
        (snd (regen_answer w model diff n fb) = None ->
         let message' := TrimSpace (fst (regen_answer w model diff n fb)) in
         snd turn =
         snd (interactive_loop w false false model diff (after_line rest)
                message' (S n)))).
Proof.
  intros w cfg autoYes dryRun stdin r. subst r. split; [|split].
  - change (failures_reported (runInteractiveCommit w cfg autoYes dryRun stdin)).
    apply session_cases.
    + intros _ ev phase e Hin F.
      repeat (destruct Hin as [Hin|Hin]; [subst ev; discriminate F|]).
      destruct Hin.
    + intros e0 _ D ev phase e Hin F.
      destruct (git_diff_staged w) as [txt d]. cbn in D. subst d.
      repeat (destruct Hin as [Hin|Hin]; [subst ev; try discriminate F|]);
        [|destruct Hin].
      cbn in F. inversion F; subst.
      apply reported_here; cbn; auto.
    + intros _ D ev phase e Hin F. rewrite D in Hin.
      repeat (destruct Hin as [Hin|Hin]; [subst ev; discriminate F|]).
      destruct Hin.
    + intros e0 _ D _ _ ev phase e Hin F.
      destruct (git_diff_staged w) as [txt d]. cbn in D. subst d.
      cbn in Hin.
      repeat (destruct Hin as [Hin|Hin]; [subst ev; try discriminate F|]);
        [|destruct Hin].
      cbn in F. inversion F; subst.
      apply reported_here; cbn; auto.
    + intros diff [txt d] e0 _ D _ _ _ E ev phase e Hin F.
      rewrite D in Hin. cbn in E. subst d. cbn in Hin.
      repeat (destruct Hin as [Hin|Hin]; [subst ev; try discriminate F|]);
        [|destruct Hin].
      cbn in F. inversion F; subst.
      apply reported_here; cbn; auto.
    + intros diff text G.
      apply failures_reported_after; [|apply loop_failures_reported].
      intros ev Hin.
      repeat (destruct Hin as [Hin|Hin]; [subst ev; reflexivity|]).
      destruct Hin.
  - apply session_cases; try (intros; congruence).
    + intros. eexists. reflexivity.
    + intros diff text (Q & _) N. congruence.
  - intros model diff rd rest message n e He D Hf fb turn. subst fb turn. split.
    + now apply loop_regen_starts.
    + intros G message'. subst message'.
      rewrite (loop_regen _ _ _ _ _ _ _ He D G). reflexivity.
Qed.

(** A session in which the read of the feedback line fails (the stream
    reports its end there) and which goes on to commit and returns
    [nil]: a failed read of the terminal that does not end the session. *)
Lemma feedback_read_failure_is_not_fatal :
  let r := runInteractiveCommit Examples.happy Examples.cfg0 false false
             [Examples.line "n"; Examples.end_of_input; Examples.line "y"] in
  nth_error (fst r) 13 = Some (EvReadString FeedbackLine Examples.end_of_input) /\
  rd_err Examples.end_of_input = Some io_EOF /\
  snd r = None /\
  exit_code (snd r) = 0%Z /\
  commit_calls (fst r) = ["fix: second try"].
Proof. vm_compute. repeat split. Qed.

(** A session in which [git diff --staged --quiet] fails with exit
    status 128: the session returns the error of a session with nothing
    staged, and the exit status is not on its chain of causes. *)
Example staged_check_failure_loses_its_cause :
  let r := runInteractiveCommit Examples.git_broken Examples.cfg0 false false [] in
  fst r = [say "Checking for staged changes...";
           EvGitDiffQuiet (Some (ExitError 128))] /\
  snd (checkStagedChanges Examples.git_broken) =
    Some (ErrWrap "failed to check staged changes" (ExitError 128)) /\
  snd r = Some (CLIError "no staged changes found" (Some stage_hint) None) /\
  unwrap_chain (CLIError "no staged changes found" (Some stage_hint) None) =
    [CLIError "no staged changes found" (Some stage_hint) None].
Proof. vm_compute. repeat split. Qed.

(* ================================================================== *)
(** ** The staged-changes check *)

(** [cmd.Run()] of os/exec for a command that ran and exited with
    [code]: [nil] for 0, an [*exec.ExitError] otherwise. *)
Definition cmd_Run_exit (code : Z) : option go_error :=
  if Z.eqb code 0 then None else Some (ExitError code).

(** C4.  [checkStagedChanges] on the exit status of [git diff --staged
    --quiet]: status 0 gives the error [no staged changes] (the answer
    no), status 1 gives [nil] (the answer yes), and any other status
    gives an error of its own that wraps the [ExitError], different from
    both answers; so does a failure to run the command at all. *)
Theorem staged_check_maps_exit_status :
  forall w,
    (forall code,
        git_diff_staged_quiet w = cmd_Run_exit code ->
        snd (checkStagedChanges w) =
        if Z.eqb code 0 then Some (ErrNew "no staged changes")
        else if Z.eqb code 1 then None
        else Some (ErrWrap "failed to check staged changes" (ExitError code))) /\
    (forall e,
        git_diff_staged_quiet w = Some e -> e <> ExitError 1 ->
        snd (checkStagedChanges w) =
        Some (ErrWrap "failed to check staged changes" e)) /\
    (forall e,
        Some (ErrWrap "failed to check staged changes" e) <> None /\
        Some (ErrWrap "failed to check staged changes" e) <>
        Some (ErrNew "no staged changes")) /\
    fst (checkStagedChanges w) = [EvGitDiffQuiet (git_diff_staged_quiet w)].
Proof.
  intros w.
  assert (Hother : forall e,
             git_diff_staged_quiet w = Some e -> e <> ExitError 1 ->
             snd (checkStagedChanges w) =
             Some (ErrWrap "failed to check staged changes" e)).
  { intros e Q N. unfold checkStagedChanges. rewrite Q.
    destruct e as [|c| |]; try reflexivity.
    destruct c as [|[| |]|]; try reflexivity. congruence. }
  split; [|split; [exact Hother|split]].
  - intros code Q. unfold cmd_Run_exit in Q.
    destruct (Z.eq_dec code 0) as [E0|N0].
    { subst code. unfold checkStagedChanges. rewrite Q. reflexivity. }
    rewrite (proj2 (Z.eqb_neq code 0) N0) in *.
    destruct (Z.eq_dec code 1) as [E1|N1].
    { subst code. unfold checkStagedChanges. rewrite Q. reflexivity. }
    rewrite (proj2 (Z.eqb_neq code 1) N1).
    apply Hother; congruence.
  - intros e. split; discriminate.
  - unfold checkStagedChanges.
    destruct (git_diff_staged_quiet w) as [e|]; [|reflexivity].
    destruct e as [|c| |]; try reflexivity.
    destruct c as [|[| |]|]; reflexivity.
Qed.

(* ================================================================== *)
(** ** The composed prompt *)

Lemma append_assoc (a b c : string) : (a ++ b) ++ c = a ++ b ++ c.
Proof. induction a as [|x a IH]; cbn; [reflexivity | now rewrite IH]. Qed.

(** C7.  [CommitMessage D F] returns the fixed system prompt and a user
    prompt that is the fixed first line, a blank line and [D]; for a
    non-empty [F] it is followed by a blank line, the marker [User
    feedback for improvement: ] and [F]; for the empty [F] nothing
    follows [D]. *)
Theorem CommitMessage_user_prompt :
  forall D F,
    fst (prompt.CommitMessage D F) = prompt.system_prompt /\
    (F = EmptyString ->
     snd (prompt.CommitMessage D F) =
     "Generate a conventional commit message for these changes:" ++ LF ++ LF ++ D) /\
    (F <> EmptyString ->
     snd (prompt.CommitMessage D F) =
     "Generate a conventional commit message for these changes:" ++ LF ++ LF ++ D
       ++ LF ++ LF ++ "User feedback for improvement: " ++ F).
Proof.
  intros D F. split; [reflexivity|]. split.
  - intros ->. reflexivity.
  - intros N. unfold prompt.CommitMessage.
    apply String.eqb_neq in N. rewrite N. cbn [negb snd].
    unfold prompt.user_prefix, prompt.feedback_marker.
    rewrite !append_assoc. reflexivity.
Qed.

(* ================================================================== *)
(** ** Decisions *)

(** What the loop prints and reads while the lines [bad] are refused. *)
Definition reprompts (message : string) (bad : list ReadResult) : Trace :=
  flat_map
    (fun rd =>
       (ask message rd ++ [say (LF ++ "Invalid choice. Please enter y/n/e/c.")])%list)
    bad.

Definition refused (w : World) (rd : ReadResult) : Prop :=
  rd_err rd = None /\ parse_decision w (rd_text rd) = Invalid.

Lemma loop_invalid_many w model diff rest message n : forall bad,
  Forall (refused w) bad ->
  interactive_loop w false false model diff (bad ++ rest)%list message n =
  ((reprompts message bad ++
    fst (interactive_loop w false false model diff rest message n))%list,
   snd (interactive_loop w false false model diff rest message n)).
Proof.
  induction bad as [|rd bad IH]; intros B.
  - cbn [app reprompts flat_map]. now destruct (interactive_loop _ _ _ _ _ _ _ _).
  - inversion B as [|? ? [He D] B']; subst.
    cbn [app]. rewrite (loop_invalid _ _ _ _ _ _ _ He D), (IH B').
    cbn [fst snd reprompts flat_map].
    rewrite <- !app_assoc. reflexivity.
Qed.

(** The accepted words of the switch. *)
Definition keywords : list string :=
  ["y"; "yes"; "n"; "no"; "e"; "edit"; "c"; "cancel"].

Lemma switch_choice_invalid c : switch_choice c = Invalid <-> ~ In c keywords.
Proof.
  unfold switch_choice, keywords.
  repeat match goal with
         | |- context [String.eqb c ?k] =>
             destruct (String.eqb_spec c k) as [->|?]
         end; cbn [orb In]; split; intros H; try discriminate;
    try (exfalso; apply H; tauto); try reflexivity.
  intuition congruence.
Qed.

Lemma parse_decision_ascii w s :
  isASCII s = true ->
  parse_decision w s = switch_choice (TrimSpace (lower_bytes s)).
Proof.
  intros A. unfold parse_decision, ToLower.
  rewrite (isASCII_TrimSpace _ A). now rewrite TrimSpace_lower.
Qed.

(** C8.  The decision of a line is the switch on its trimmed, lowered
    text: [y], [Y], [yes] and [ YES ] with its line feed give Approve,
    [n] and [no] Regenerate, [e] and [edit] Edit, [c] and [cancel]
    Cancel, and [q], the empty line and [maybe] are Invalid.  White
    space around a line does not change its decision, nor does the case
    of the letters of an ASCII line; a line is Invalid exactly when its
    trimmed, lowered text is none of the eight accepted words.  However
    many Invalid lines come first, the loop prints its notice and asks
    again for each of them, and then goes on from the lines after them
    with the same message and the same count of calls. *)
Theorem decisions_parse_and_invalid_lines_reprompt :
  forall w,
    (parse_decision w "y" = Approve /\
     parse_decision w "Y" = Approve /\
     parse_decision w "yes" = Approve /\
     parse_decision w (" YES " ++ LF) = Approve) /\
    (parse_decision w "n" = Regenerate /\ parse_decision w "no" = Regenerate) /\
    (parse_decision w "e" = Edit /\ parse_decision w "edit" = Edit) /\
    (parse_decision w "c" = Cancel /\ parse_decision w "cancel" = Cancel) /\
    (parse_decision w "q" = Invalid /\
     parse_decision w EmptyString = Invalid /\
     parse_decision w "maybe" = Invalid) /\
    (forall pre line post,
        spaces pre -> spaces post ->
        parse_decision w (pre ++ line ++ post) = parse_decision w line) /\
    (forall s t,
        isASCII s = true -> isASCII t = true ->
        lower_bytes s = lower_bytes t ->
        parse_decision w s = parse_decision w t) /\
    (forall line,
        parse_decision w line = Invalid <->
        ~ In (ToLower (unicode_ToLower w) (TrimSpace line)) keywords) /\
    (forall model diff bad rest message n,
        Forall (refused w) bad ->
        interactive_loop w false false model diff (bad ++ rest)%list message n =
        ((reprompts message bad ++
          fst (interactive_loop w false false model diff rest message n))%list,
         snd (interactive_loop w false false model diff rest message n))).
Proof.
  intros w.
  repeat match goal with |- _ /\ _ => split end; try reflexivity.
  - intros pre line post P Q. unfold parse_decision.
    now rewrite (TrimSpace_surrounded _ _ _ P Q).
  - intros s t As At E.
    rewrite !parse_decision_ascii by assumption. now rewrite E.
  - intros line. apply switch_choice_invalid.
  - intros. now apply loop_invalid_many.
Qed.

(* ================================================================== *)
(** ** Sessions run in the sample world *)

Section Runs.

Import Examples.

Let first_answer : string := "  feat: add foo" ++ LF.

Lemma happy_generates : generates happy cfg0 sample_diff first_answer.
Proof.
  unfold generates. repeat split; try reflexivity. discriminate.
Qed.

Lemma auto_approve_run :
  commit_calls (fst (runInteractiveCommit happy cfg0 true false [])) =
    ["feat: add foo"] /\
  no_read (fst (runInteractiveCommit happy cfg0 true false [])).
Proof.
  pose proof (auto_approve_commits_trimmed_message
                happy cfg0 [] sample_diff first_answer happy_generates)
    as (_ & _ & C & R & _).
  split; [exact C | exact R].
Defined.

Lemma edit_run :
  commit_calls
    (fst (interactive_loop happy false false EmptyString sample_diff
            [line "E"; line "y"] "feat: add foo" 1)) = ["fix: corrected typo"] /\
  (snd (interactive_loop no_editor false false EmptyString sample_diff
          [line "edit"] "feat: add foo" 1) =
     Some (CLIError "failed to open editor" None
             (Some (ErrWrap "editor failed" (ErrNew "executable file not found")))) /\
   commit_calls
     (fst (interactive_loop no_editor false false EmptyString sample_diff
             [line "edit"] "feat: add foo" 1)) = []).
Proof.
  split.
  - pose proof (edit_commits_edited_text happy EmptyString sample_diff
                  (line "E") [line "y"] "feat: add foo" 1
                  eq_refl eq_refl) as [H _].
    rewrite (H "fix: corrected typo" eq_refl eq_refl eq_refl eq_refl).
    reflexivity.
  - pose proof (edit_commits_edited_text no_editor EmptyString sample_diff
                  (line "edit") [] "feat: add foo" 1
                  eq_refl eq_refl) as [_ H].
    destruct (H (ErrWrap "editor failed" (ErrNew "executable file not found"))
                eq_refl) as (R & C & _).
    split; [exact R | exact C].
Defined.

Lemma spaces_blank_line : spaces (rd_text (next_line [line "  "])).
Proof.
  change (spaces (" " ++ " " ++ LF ++ EmptyString)).
  repeat (apply spaces_cons; [space_rune|]). constructor.
Qed.

Lemma blank_feedback_run :
  TrimSpace (rd_text (next_line [line "  "])) = EmptyString /\
  prompt.CommitMessage sample_diff (TrimSpace (rd_text (next_line [line "  "]))) =
    (prompt.system_prompt, prompt.user_prefix ++ sample_diff).
Proof.
  pose proof (feedback_is_trimmed_before_composition happy EmptyString
                sample_diff (line "no") [line "  "] "feat: add foo" 1
                eq_refl eq_refl) as [_ H].
  exact (H spaces_blank_line).
Defined.

Lemma dry_run_run :
  let r := runInteractiveCommit happy cfg0 true true [line "y"] in
  snd r = None /\ exit_code (snd r) = 0%Z /\ commit_calls (fst r) = [] /\
  nth_error (fst r) 8 = Some (EvStdout ("feat: add foo" ++ LF)).
Proof.
  pose proof (dry_run_shows_and_exits happy cfg0 true [line "y"]) as H.
  cbv zeta in H. destruct H as (_ & C & _ & G).
  destruct (G sample_diff first_answer happy_generates) as [E X].
  cbv zeta. rewrite E. repeat split.
Defined.

Lemma cancel_run :
  let r := runInteractiveCommit happy cfg0 false false [line "c"] in
  commit_calls (fst r) = [] /\
  repo_after ["initial commit"] (fst r) = ["initial commit"].
Proof.
  pose proof (commit_once_last_and_only_on_success
                happy cfg0 false false [line "c"] ["initial commit"]) as H.
  cbv zeta in H. destruct H as (_ & _ & _ & _ & H).
  apply (H (removelast
              (fst (runInteractiveCommit happy cfg0 false false [line "c"])))).
  vm_compute. reflexivity.
Defined.

Lemma commit_failure_run :
  (exists err,
      snd (runInteractiveCommit commit_rejected cfg0 true false []) = Some err /\
      error_text err = "failed to create commit" /\
      In (ExitError 1) (unwrap_chain err)) /\
  (exists t,
      fst (interactive_loop happy false false EmptyString sample_diff
             [line "n"; end_of_input; line "y"] "feat: add foo" 1) =
      (regen_turn happy EmptyString sample_diff "feat: add foo" 1
         (line "n") end_of_input ++ t)%list).
Proof.
  split.
  - pose proof (failures_are_fatal_and_keep_their_cause
                  commit_rejected cfg0 true false []) as H.
    cbv zeta in H. destruct H as (H & _).
    apply (H (EvGitCommit "feat: add foo" (Some (ExitError 1)))).
    + vm_compute. repeat (first [left; reflexivity | right]).
    + reflexivity.
  - pose proof (failures_are_fatal_and_keep_their_cause
                  happy cfg0 false false []) as H.
    cbv zeta in H. destruct H as (_ & _ & H).
    exact (proj1 (H EmptyString sample_diff (line "n")
                    [end_of_input; line "y"] "feat: add foo" 1 io_EOF
                    eq_refl eq_refl eq_refl)).
Defined.

Lemma staged_check_runs :
  snd (checkStagedChanges happy) = None /\
  snd (checkStagedChanges git_broken) =
    Some (ErrWrap "failed to check staged changes" (ExitError 128)).
Proof.
  split.
  - exact (proj1 (staged_check_maps_exit_status happy) 1%Z eq_refl).
  - exact (proj1 (staged_check_maps_exit_status git_broken) 128%Z eq_refl).
Defined.

Lemma feedback_prompt_run :
  snd (prompt.CommitMessage sample_diff "mention the bugfix") =
  "Generate a conventional commit message for these changes:" ++ LF ++ LF ++
  "diff --git a/x b/x" ++ LF ++ "+foo" ++ LF ++ LF ++
  "User feedback for improvement: mention the bugfix".
Proof.
  apply (proj2 (proj2 (CommitMessage_user_prompt sample_diff "mention the bugfix"))).
  discriminate.
Defined.

Lemma invalid_lines_run :
  snd (interactive_loop happy false false EmptyString sample_diff
         [line "q"; line EmptyString; line "maybe"; line "y"] "feat: add foo" 1) =
  snd (interactive_loop happy false false EmptyString sample_diff
         [line "y"] "feat: add foo" 1).
Proof.
  pose proof (decisions_parse_and_invalid_lines_reprompt happy) as H.
  destruct H as (_ & _ & _ & _ & _ & _ & _ & _ & H).
  assert (B : Forall (refused happy)
                 [line "q"; line EmptyString; line "maybe"])
    by (repeat constructor).
  exact (f_equal snd
           (H EmptyString sample_diff
              [line "q"; line EmptyString; line "maybe"] [line "y"]
              "feat: add foo" 1 B)).
Defined.

Lemma regeneration_rounds_run :
  service_prompts
    (fst (runInteractiveCommit happy cfg0 false false
            [line "no"; line "mention the bugfix"; line "n"; line EmptyString;
             line "y"])) =
    map (prompt.CommitMessage sample_diff)
      [EmptyString; "mention the bugfix"; EmptyString] /\
  interactive_loop happy false false EmptyString sample_diff
    [line "no"; line "mention the bugfix"; line "y"] "feat: add foo" 1 =
  ((ask "feat: add foo" (line "no") ++
    [EvStdout feedback_prompt;
     EvReadString FeedbackLine (line "mention the bugfix");
     say (LF ++ "Regenerating...")%string;
     EvServiceRun 1 EmptyString prompt.system_prompt
       (prompt.user_prefix ++ sample_diff ++ prompt.feedback_marker ++
        "mention the bugfix")%string
       (("fix: second try" ++ LF)%string, None)] ++
    fst (interactive_loop happy false false EmptyString sample_diff
           [line "y"] "fix: second try" 2))%list,
   snd (interactive_loop happy false false EmptyString sample_diff
          [line "y"] "fix: second try" 2)).
Proof.
  split.
  - pose proof (prompts_use_the_diff_and_the_round_feedback
                  happy cfg0 false false
                  [line "no"; line "mention the bugfix"; line "n";
                   line EmptyString; line "y"]) as H.
    cbv zeta in H. destruct H as (_ & _ & _ & H & _).
    destruct (H sample_diff eq_refl eq_refl ltac:(discriminate) eq_refl)
      as [_ E].
    rewrite E. reflexivity.
  - pose proof (prompts_use_the_diff_and_the_round_feedback
                  happy cfg0 false false []) as H.
    cbv zeta in H. destruct H as (_ & _ & _ & _ & H).
    exact (proj1 (H EmptyString sample_diff (line "no")
                    [line "mention the bugfix"; line "y"] "feat: add foo" 1
                    eq_refl eq_refl) eq_refl).
Defined.

(** Two rounds of regeneration: the prompt of the second round carries
    its own (empty) feedback and nothing of the first round's. *)
Example two_rounds_of_feedback :
  user_prompts
    (fst (runInteractiveCommit happy cfg0 false false
            [line "no"; line "mention the bugfix"; line "n"; line EmptyString;
             line "y"])) =
  [ prompt.user_prefix ++ sample_diff;
    prompt.user_prefix ++ sample_diff ++ prompt.feedback_marker ++ "mention the bugfix";
    prompt.user_prefix ++ sample_diff ].
Proof. vm_compute. reflexivity. Qed.

End Runs.

(* ================================================================== *)
(** ** Further properties of the workflow *)

(** *** Which steps a session can take *)

(** Every step of the loop is a print, a read of the terminal, a call
    of the service made with the loop's own model, a step of
    [editInEditor] or a [git commit]: a property of those holds of every
    step of the loop. *)
Section LoopSteps.

Variable w : World.
Variables (autoYes dryRun : bool) (model diff : string).
Variable P : Event -> Prop.

Hypothesis P_stdout : forall text, P (EvStdout text).
Hypothesis P_read : forall site rd, P (EvReadString site rd).
Hypothesis P_service : forall n feedback,
  let p := prompt.CommitMessage diff feedback in
  P (EvServiceRun n model (fst p) (snd p) (service_Run w n model (fst p) (snd p))).
Hypothesis P_edit : forall message ev,
  In ev (fst (editInEditor w message)) -> P ev.
Hypothesis P_commit : forall message, P (EvGitCommit message (git_commit w message)).

Lemma Forall_ask message rd : Forall P (ask message rd).
Proof. repeat constructor; auto. Qed.

Lemma loop_steps stdin message n :
  Forall P (fst (interactive_loop w autoYes dryRun model diff stdin message n)).
Proof.
  apply loop_turn_ind; intros; cbn [fst];
    unfold regen_turn, regen_call;
    repeat first
      [ assumption
      | match goal with
        | |- Forall P (fst (editInEditor _ _)) =>
            apply Forall_forall; intros ev Hin; eapply P_edit; exact Hin
        end
      | apply Forall_app; split
      | apply Forall_ask
      | apply Forall_cons
      | apply Forall_nil
      | apply P_stdout | apply P_read | apply P_commit
      | apply (P_service _ _) ].
Qed.

End LoopSteps.

(** The model a session uses: the [--model] flag, else the configured
    default model, else [CommitMessageModel]. *)
Definition chosen_model (aiCfg : Config) (flag : string) : string :=
  if negb (String.eqb flag EmptyString) then flag
  else if String.eqb (DefaultModel aiCfg) EmptyString then prompt.CommitMessageModel
  else DefaultModel aiCfg.

(** What a step shows of the model: a call of the service names it, the
    creation of the client sees the configuration it is read from. *)
Definition step_model (ev : Event) : option string :=
  match ev with
  | EvServiceRun _ m _ _ _ => Some m
  | _ => None
  end.

Definition step_client_model (ev : Event) : option string :=
  match ev with
  | EvNewClient c _ => Some (DefaultModel c)
  | _ => None
  end.

Lemma edit_steps_kind w message ev :
  In ev (fst (editInEditor w message)) ->
  match ev with
  | EvCreateTemp _ | EvWriteTemp _ _ | EvEditor _ _ | EvReadFile _ | EvRemoveTemp => True
  | _ => False
  end.
Proof.
  intros Hin. destruct (editInEditor_outcome w message); cbn [fst] in Hin;
    repeat (destruct Hin as [Hin|Hin]; [subst ev; exact I|]); destruct Hin.
Qed.

(** X1.  In a session started by the command, every call of the
    service, the first and every regeneration, names the same model:
    the [--model] flag when it is given, else the configured default
    model, else [CommitMessageModel].  The client is created from the
    configuration before the built-in default is filled in: it sees the
    flag or the configured model, which may be empty. *)
Theorem every_call_uses_the_chosen_model :
  forall w aiCfg autoYes dryRun flag stdin ev,
    In ev (fst (RunE w aiCfg autoYes dryRun flag stdin)) ->
    (forall m, step_model ev = Some m -> m = chosen_model aiCfg flag) /\
    (forall m, step_client_model ev = Some m ->
               m = if negb (String.eqb flag EmptyString) then flag
                   else DefaultModel aiCfg).
Proof.
  intros w aiCfg autoYes dryRun flag stdin. unfold RunE.
  set (cfg := if negb (String.eqb flag EmptyString)
              then {| DefaultModel := flag |} else aiCfg).
  assert (Hc : DefaultModel cfg =
               if negb (String.eqb flag EmptyString) then flag
               else DefaultModel aiCfg).
  { subst cfg. destruct (negb _); reflexivity. }
  assert (Hm : effective_model cfg = chosen_model aiCfg flag).
  { unfold effective_model, chosen_model. rewrite Hc.
    destruct (String.eqb_spec flag EmptyString) as [->|N]; cbn [negb].
    - reflexivity.
    - apply String.eqb_neq in N. now rewrite N. }
  apply Forall_forall.
  apply session_cases.
  - intros _. repeat constructor; cbn; intros; discriminate.
  - intros e _ _. repeat constructor; cbn; intros; discriminate.
  - intros _ _. repeat constructor; cbn; intros; discriminate.
  - intros e _ _ _ _. cbn [app].
    repeat constructor; cbn; intros; try discriminate; congruence.
  - intros diff r e _ _ _ _ _ _. cbn [app].
    repeat constructor; cbn; intros; try discriminate; congruence.
  - intros diff text _. apply Forall_app. split.
    + unfold opening.
      repeat constructor; cbn; intros; try discriminate; congruence.
    + apply loop_steps.
      * intros; split; cbn; intros; discriminate.
      * intros; split; cbn; intros; discriminate.
      * intros; split; cbn; intros; try discriminate; congruence.
      * intros message ev Hin. apply edit_steps_kind in Hin.
        destruct ev; try destruct Hin; split; cbn; intros; discriminate.
      * intros; split; cbn; intros; discriminate.
Qed.

(** *** Nothing happens without a staged, non-empty diff *)

(** Steps that come after the diff is in hand: the client, the service,
    the terminal, the editor and the commit. *)
Definition beyond_diff (ev : Event) : bool :=
  match ev with
  | EvStdout _ | EvGitDiffQuiet _ | EvGitDiff _ => false
  | _ => true
  end.

Definition is_client_step (ev : Event) : bool :=
  match ev with
  | EvNewClient _ _ => true
  | _ => false
  end.

(** X2.  A session creates no client, calls no service, reads no line,
    starts no editor and calls no commit unless the staged-changes check
    answered yes and the diff command succeeded with a non-empty diff;
    every such step but the creation of the client also needs the
    client to have been created; and the diff is fetched only after the
    staged-changes check answered yes. *)
Theorem no_step_without_a_staged_diff :
  forall w cfg autoYes dryRun stdin ev,
    In ev (fst (runInteractiveCommit w cfg autoYes dryRun stdin)) ->
    (beyond_diff ev = true ->
     git_diff_staged_quiet w = Some (ExitError 1) /\
     snd (git_diff_staged w) = None /\
     fst (git_diff_staged w) <> EmptyString /\
     (is_client_step ev = false -> ai_NewClient w cfg = None)) /\
    (forall x, ev = EvGitDiff x -> git_diff_staged_quiet w = Some (ExitError 1)).
Proof.
  intros w cfg autoYes dryRun stdin. apply Forall_forall.
  apply session_cases.
  - intros _. repeat constructor; cbn; intros; discriminate.
  - intros e Q _. repeat constructor; cbn; intros; try discriminate; auto.
  - intros Q _. repeat constructor; cbn; intros; try discriminate; auto.
  - intros e Q D N C. cbn [app].
    repeat constructor; cbn; intros; try discriminate; auto.
  - intros diff r e Q D N C _ _. rewrite D. cbn [app fst snd].
    repeat constructor; cbn; intros; try discriminate; auto.
  - intros diff text (Q & D & N & C & R). rewrite D. cbn [fst snd].
    apply Forall_forall. intros ev _.
    split; [intros _; auto | intros; exact Q].
Qed.

(** X3.  The two precondition failures: when [git diff --staged
    --quiet] exits 0 the session does nothing else and returns [no
    staged changes found]; when the check answers yes but the diff
    command prints nothing, the session returns [no changes to commit]
    before any client is created.  Both errors carry the hint [Stage
    changes first: git add <files>] and no cause, and the process does
    not exit 0. *)
Theorem precondition_failures_carry_the_hint :
  forall w cfg autoYes dryRun stdin,
    let r := runInteractiveCommit w cfg autoYes dryRun stdin in
    (git_diff_staged_quiet w = None ->
     r = ([say "Checking for staged changes..."; EvGitDiffQuiet None],
          Some (CLIError "no staged changes found"
                  (Some "Stage changes first: git add <files>") None))) /\
    (git_diff_staged_quiet w = Some (ExitError 1) ->
     git_diff_staged w = (EmptyString, None) ->
     r = ([say "Checking for staged changes..."; EvGitDiffQuiet (Some (ExitError 1));
           say "Generating diff..."; EvGitDiff (EmptyString, None)],
          Some (CLIError "no changes to commit"
                  (Some "Stage changes first: git add <files>") None)) /\
     exit_code (snd r) = 1%Z).
Proof.
  intros w cfg autoYes dryRun stdin r. subst r. split.
  - intros Q. unfold runInteractiveCommit, checkStagedChanges. rewrite Q.
    reflexivity.
  - intros Q D. unfold runInteractiveCommit, checkStagedChanges, getStagedDiff.
    rewrite Q, D. split; reflexivity.
Qed.

(** *** How a session that exits 0 ends *)

Fixpoint last_step (t : Trace) : option Event :=
  match t with
  | [] => None
  | [e] => Some e
  | _ :: t' => last_step t'
  end.

(** The three steps a session can end well on: a commit that was
    created, the dry-run notice, the cancellation notice. *)
Definition ends_well (e : Event) : bool :=
  match e with
  | EvGitCommit _ None => true
  | EvStdout text =>
      String.eqb text ((LF ++ "(Dry run - no commit created)") ++ LF) ||
      String.eqb text ((LF ++ "Commit cancelled.") ++ LF)
  | _ => false
  end.

Definition ended_well (t : Trace) : bool :=
  match last_step t with
  | Some e => ends_well e
  | None => false
  end.

Lemma last_step_app (a b : Trace) : b <> [] -> last_step (a ++ b)%list = last_step b.
Proof.
  intros N. induction a as [|x a IH]; [reflexivity|].
  cbn [app]. destruct (a ++ b)%list as [|e l] eqn:E.
  - apply app_eq_nil in E as [_ E]. congruence.
  - exact IH.
Qed.

Lemma ended_well_app (a b : Trace) : b <> [] -> ended_well (a ++ b)%list = ended_well b.
Proof. intros N. unfold ended_well. now rewrite last_step_app. Qed.

Lemma ended_well_commit w (pre : Trace) m :
  ended_well (pre ++ [EvGitCommit m (git_commit w m)])%list = true <->
  commit_result (git_commit w m) = None.
Proof.
  rewrite ended_well_app by discriminate. unfold ended_well. cbn.
  destruct (git_commit w m); cbn; split; congruence.
Qed.

Lemma ended_well_edit_failed w message e :
  snd (snd (editInEditor w message)) = Some e ->
  fst (editInEditor w message) <> [] /\
  ended_well (fst (editInEditor w message)) = false.
Proof.
  intros E. destruct (editInEditor_outcome w message); cbn in *;
    try discriminate; split; try discriminate; reflexivity.
Qed.

Definition ends_as_it_returns (r : IO (option go_error)) : Prop :=
  fst r <> [] /\ (snd r = None <-> ended_well (fst r) = true).

Lemma loop_ended_well w autoYes dryRun model diff stdin message n :
  ends_as_it_returns (interactive_loop w autoYes dryRun model diff stdin message n).
Proof.
  apply (loop_turn_ind w autoYes dryRun model diff
           (fun _ _ _ r => ends_as_it_returns r));
    unfold ends_as_it_returns; intros; cbn [fst snd].
  - split; [discriminate|]. split; reflexivity.
  - split; [discriminate|]. rewrite app_two. symmetry. apply ended_well_commit.
  - split; [discriminate|]. split; discriminate.
  - split; [discriminate|]. split; discriminate.
  - split; [discriminate|]. symmetry. apply ended_well_commit.
  - split; [discriminate|]. split; reflexivity.
  - split; [discriminate|].
    rewrite app_cons_mid, ended_well_app by tauto. tauto.
  - split; [discriminate|]. split; discriminate.
  - split; [discriminate|]. rewrite ended_well_app by tauto. tauto.
  - split; [discriminate|].
    match goal with
    | E : snd (snd (editInEditor _ _)) = Some _ |- _ =>
        destruct (ended_well_edit_failed _ _ _ E) as [N F]
    end.
    rewrite ended_well_app, F by exact N. split; discriminate.
  - split; [discriminate|]. rewrite app_assoc. symmetry. apply ended_well_commit.
Qed.

(** X4.  The process exits 0 exactly when the last step of the session
    is a [git commit] that was created, the dry-run notice or the
    cancellation notice; every other session exits 1. *)
Theorem exit_zero_iff_committed_previewed_or_cancelled :
  forall w cfg autoYes dryRun stdin,
    let r := runInteractiveCommit w cfg autoYes dryRun stdin in
    (exit_code (snd r) = 0%Z <-> ended_well (fst r) = true) /\
    (exit_code (snd r) = 1%Z <-> ended_well (fst r) = false).
Proof.
  intros w cfg autoYes dryRun stdin r.
  assert (H : snd r = None <-> ended_well (fst r) = true).
  { subst r. apply session_cases; intros; cbn [fst snd];
      try (split; discriminate).
    destruct (loop_ended_well w autoYes dryRun (effective_model cfg) diff stdin
                (TrimSpace text) 1) as [N E].
    rewrite ended_well_app by exact N. exact E. }
  destruct (snd r) eqn:S, (ended_well (fst r)) eqn:W; cbn;
    split; split; intros; try reflexivity; try discriminate;
    try (destruct H as [H1 H2]; first [specialize (H1 eq_refl) | specialize (H2 eq_refl)];
         discriminate).
Qed.

(** *** Monitors over the steps of a session *)

(** A monitor reads the steps of a session in order; a step it refuses
    ends the run with [None]. *)
Record Monitor : Type := {
  mstate : Type;
  mstep : mstate -> Event -> option mstate
}.

Fixpoint mrun (M : Monitor) (s : mstate M) (t : Trace) : option (mstate M) :=
  match t with
  | [] => Some s
  | e :: t' =>
      match mstep M s e with
      | Some s' => mrun M s' t'
      | None => None
      end
  end.

Lemma mrun_app M (a b : Trace) : forall s,
  mrun M s (a ++ b)%list =
  match mrun M s a with
  | Some s' => mrun M s' b
  | None => None
  end.
Proof.
  induction a as [|e a IH]; intros s; [reflexivity|].
  cbn. destruct (mstep M s e); [apply IH | reflexivity].
Qed.

(** A monitor that stays in [s] over every step of [t]. *)
Lemma mrun_stays M (t : Trace) s :
  Forall (fun e => mstep M s e = Some s) t -> mrun M s t = Some s.
Proof.
  induction 1 as [|e t H _ IH]; [reflexivity|]. cbn. now rewrite H.
Qed.

(** *** The temporary file of the editor *)

(** The life of the temporary file: none, created, written, edited, and
    spent (read back, or a step on it has failed). *)
Inductive TempFile : Type := TmpNone | TmpCreated | TmpWritten | TmpEdited | TmpSpent.

(** The file is created when there is none, written once created, given
    to the editor once written, read back once the editor has ended
    without error, and removed whatever happened to it; a failed step
    leaves only the removal; every other step of the session needs the
    file to be gone. *)
Definition temp_step (s : TempFile) (e : Event) : option TempFile :=
  match e, s with
  | EvCreateTemp None, TmpNone => Some TmpCreated
  | EvCreateTemp (Some _), TmpNone => Some TmpNone
  | EvWriteTemp _ None, TmpCreated => Some TmpWritten
  | EvWriteTemp _ (Some _), TmpCreated => Some TmpSpent
  | EvEditor _ (_, None), TmpWritten => Some TmpEdited
  | EvEditor _ (_, Some _), TmpWritten => Some TmpSpent
  | EvReadFile _, TmpEdited => Some TmpSpent
  | EvRemoveTemp, (TmpCreated | TmpWritten | TmpEdited | TmpSpent) => Some TmpNone
  | (EvStdout _ | EvGitDiffQuiet _ | EvGitDiff _ | EvNewClient _ _
     | EvServiceRun _ _ _ _ _ | EvReadString _ _ | EvGitCommit _ _), TmpNone =>
      Some TmpNone
  | _, _ => None
  end.

Definition temp_monitor : Monitor := {| mstate := TempFile; mstep := temp_step |}.

Lemma temp_edit w message :
  mrun temp_monitor TmpNone (fst (editInEditor w message)) = Some TmpNone.
Proof. destruct (editInEditor_outcome w message); reflexivity. Qed.

Lemma temp_loop w autoYes dryRun model diff stdin message n :
  mrun temp_monitor TmpNone
    (fst (interactive_loop w autoYes dryRun model diff stdin message n)) =
  Some TmpNone.
Proof.
  apply (loop_turn_ind w autoYes dryRun model diff
           (fun _ _ _ r => mrun temp_monitor TmpNone (fst r) = Some TmpNone));
    intros; cbn [fst]; unfold regen_turn;
    repeat (progress (rewrite ?mrun_app, ?temp_edit;
                      cbn -[editInEditor interactive_loop]));
    auto.
Qed.

(** X5.  The temporary file of the editor, in every session: it is
    created only when none exists, written before the editor runs, read
    back only after the editor ended without error; a failed step on it
    is followed by its removal only; it is removed on every path that
    created it; and nothing else happens while it exists: no print, no
    read, no call of the service and no [git commit].  When the session
    ends the file is gone. *)
Theorem temp_file_is_always_removed :
  forall w cfg autoYes dryRun stdin,
    mrun temp_monitor TmpNone
      (fst (runInteractiveCommit w cfg autoYes dryRun stdin)) = Some TmpNone.
Proof.
  intros w cfg autoYes dryRun stdin.
  apply session_cases; intros; try reflexivity.
  cbn [fst]. rewrite mrun_app. cbn -[interactive_loop]. apply temp_loop.
Qed.

(** *** What is committed *)

Definition is_current (cur : option string) (m : string) : bool :=
  match cur with
  | Some c => String.eqb c m
  | None => false
  end.

(** The candidate message: the trimmed answer of the last call of the
    service that succeeded, replaced by the text read back from the
    editor.  What is written to the temporary file and what is given to
    [git commit] must be the candidate. *)
Definition candidate_step (cur : option string) (e : Event)
  : option (option string) :=
  match e with
  | EvServiceRun _ _ _ _ (text, None) => Some (Some (TrimSpace text))
  | EvReadFile (content, None) => Some (Some content)
  | EvWriteTemp m _ => if is_current cur m then Some cur else None
  | EvGitCommit m _ => if is_current cur m then Some cur else None
  | _ => Some cur
  end.

Definition candidate_monitor : Monitor :=
  {| mstate := option string; mstep := candidate_step |}.

Definition accepted (M : Monitor) (s : mstate M) (t : Trace) : Prop :=
  exists s', mrun M s t = Some s'.

Lemma accepted_app M s (a b : Trace) s' :
  mrun M s a = Some s' -> accepted M s' b -> accepted M s (a ++ b)%list.
Proof. intros A [s'' B]. exists s''. now rewrite mrun_app, A. Qed.

Lemma accepted_one M s e s' : mstep M s e = Some s' -> accepted M s [e].
Proof. intros H. exists s'. cbn. now rewrite H. Qed.

Lemma candidate_ask message rd :
  mrun candidate_monitor (Some message) (ask message rd) = Some (Some message).
Proof. reflexivity. Qed.

Lemma candidate_edit w message :
  exists cur,
    mrun candidate_monitor (Some message) (fst (editInEditor w message)) = Some cur /\
    (snd (snd (editInEditor w message)) = None ->
     cur = Some (fst (snd (editInEditor w message)))).
Proof.
  destruct (editInEditor_outcome w message); cbn;
    rewrite ?String.eqb_refl; eexists; split;
    try reflexivity; intros; try discriminate; reflexivity.
Qed.

Lemma candidate_regen_call w model diff n fb cur :
  candidate_step cur (regen_call w model diff n fb) =
  Some (match snd (regen_answer w model diff n fb) with
        | None => Some (TrimSpace (fst (regen_answer w model diff n fb)))
        | Some _ => cur
        end).
Proof.
  unfold regen_call, regen_answer. cbn [fst snd candidate_step].
  destruct (service_Run w n model _ _) as [txt [e|]]; reflexivity.
Qed.

Lemma candidate_commit m r :
  accepted candidate_monitor (Some m) [EvGitCommit m r].
Proof. eapply accepted_one. cbn. rewrite String.eqb_refl. reflexivity. Qed.

Lemma candidate_loop w autoYes dryRun model diff stdin message n :
  accepted candidate_monitor (Some message)
    (fst (interactive_loop w autoYes dryRun model diff stdin message n)).
Proof.
  apply (loop_turn_ind w autoYes dryRun model diff
           (fun _ message _ r => accepted candidate_monitor (Some message) (fst r)));
    intros; cbn [fst].
  - eexists; reflexivity.
  - rewrite app_two.
    eapply accepted_app; [reflexivity | apply candidate_commit].
  - eexists; reflexivity.
  - eexists; reflexivity.
  - eapply accepted_app; [apply candidate_ask | apply candidate_commit].
  - eexists; reflexivity.
  - rewrite app_cons_mid. eapply accepted_app; [reflexivity | assumption].
  - eexists. unfold regen_turn. rewrite mrun_app, candidate_ask.
    cbn -[regen_call]. rewrite candidate_regen_call.
    match goal with
    | G : snd (regen_answer _ _ _ _ _) = Some _ |- _ => rewrite G
    end.
    reflexivity.
  - subst message'. unfold regen_turn. eapply accepted_app; [|eassumption].
    rewrite mrun_app, candidate_ask.
    cbn -[regen_call]. rewrite candidate_regen_call.
    match goal with
    | G : snd (regen_answer _ _ _ _ _) = None |- _ => rewrite G
    end.
    reflexivity.
  - destruct (candidate_edit w message0) as (cur & E & _).
    eexists. rewrite mrun_app, candidate_ask. exact E.
  - subst edited. destruct (candidate_edit w message0) as (cur & E & C).
    rewrite app_assoc.
    eapply accepted_app.
    + rewrite mrun_app, candidate_ask. exact E.
    + match goal with
      | S : snd (snd (editInEditor _ _)) = None |- _ => rewrite (C S)
      end.
      apply candidate_commit.
Qed.

(** X6.  In every session, the message given to [git commit] is the
    candidate of that moment: the text read back from the editor when
    the user edited, else the trimmed answer of the latest call of the
    service that succeeded, never an earlier answer; and what the
    editor is given to edit is that candidate too. *)
Theorem commit_takes_the_current_candidate :
  forall w cfg autoYes dryRun stdin,
    accepted candidate_monitor None
      (fst (runInteractiveCommit w cfg autoYes dryRun stdin)).
Proof.
  intros w cfg autoYes dryRun stdin.
  apply session_cases; intros; try (eexists; reflexivity).
  - match goal with
    | E : snd ?r = Some _ |- _ => destruct r as [txt [e1|]]; [|discriminate E]
    end.
    eexists; reflexivity.
  - cbn [fst]. eapply accepted_app; [reflexivity | apply candidate_loop].
Qed.

(** *** Nothing is retried *)

(** Steps after which the session must end: a failure that
    [failure_of] lists, and a staged-changes check that does not answer
    yes. *)
Definition stops (ev : Event) : bool :=
  match failure_of ev with
  | Some _ => true
  | None =>
      match ev with
      | EvGitDiffQuiet (Some (ExitError c)) => negb (Z.eqb c 1)
      | EvGitDiffQuiet _ => true
      | _ => false
      end
  end.

(** Once a step has stopped the session, only the removal of the
    temporary file may follow. *)
Definition stop_step (stopped : bool) (ev : Event) : option bool :=
  if stopped then
    match ev with
    | EvRemoveTemp => Some true
    | _ => None
    end
  else Some (stops ev).

Definition stop_monitor : Monitor := {| mstate := bool; mstep := stop_step |}.

Lemma stop_ask message rd :
  rd_err rd = None -> mrun stop_monitor false (ask message rd) = Some false.
Proof. intros H. destruct rd as [txt err]. cbn in H. subst err. reflexivity. Qed.

Lemma stop_regen_call w model diff n fb :
  stops (regen_call w model diff n fb) =
  match snd (regen_answer w model diff n fb) with
  | Some _ => true
  | None => false
  end.
Proof.
  unfold regen_call, regen_answer. cbn [fst snd].
  destruct (service_Run w n model _ _) as [txt [e|]]; destruct n; reflexivity.
Qed.

Lemma stop_edit w message :
  exists s,
    mrun stop_monitor false (fst (editInEditor w message)) = Some s /\
    (snd (snd (editInEditor w message)) = None -> s = false).
Proof.
  destruct (editInEditor_outcome w message); cbn; eexists; split;
    try reflexivity; intros; try discriminate; reflexivity.
Qed.

Lemma stop_loop w autoYes dryRun model diff stdin message n :
  accepted stop_monitor false
    (fst (interactive_loop w autoYes dryRun model diff stdin message n)).
Proof.
  apply (loop_turn_ind w autoYes dryRun model diff
           (fun _ _ _ r => accepted stop_monitor false (fst r)));
    intros; cbn [fst].
  - eexists; reflexivity.
  - eexists; reflexivity.
  - eexists; reflexivity.
  - eexists. unfold ask. rewrite mrun_app. reflexivity.
  - eapply accepted_app; [now apply stop_ask | eexists; reflexivity].
  - eapply accepted_app; [now apply stop_ask | eexists; reflexivity].
  - rewrite app_cons_mid. eapply accepted_app; [|eassumption].
    rewrite mrun_app, stop_ask by assumption. reflexivity.
  - eexists. unfold regen_turn. rewrite mrun_app, stop_ask by assumption.
    cbn -[regen_call]. reflexivity.
  - unfold regen_turn. eapply accepted_app; [|eassumption].
    rewrite mrun_app, stop_ask by assumption.
    cbn -[regen_call]. rewrite stop_regen_call.
    match goal with
    | G : snd (regen_answer _ _ _ _ _) = None |- _ => rewrite G
    end.
    reflexivity.
  - destruct (stop_edit w message0) as (s & E & _).
    eexists. rewrite mrun_app, stop_ask by assumption. exact E.
  - destruct (stop_edit w message0) as (s & E & C).
    rewrite app_assoc. eapply accepted_app.
    + rewrite mrun_app, stop_ask by assumption. exact E.
    + match goal with
      | S : snd (snd (editInEditor _ _)) = None |- _ => rewrite (C S)
      end.
      eexists; reflexivity.
Qed.

(** X7.  No step is retried and nothing is attempted after a failure:
    in every session, once the staged-changes check has not answered
    yes, or the diff command, the creation of the client, a call of the
    service, the read of the decision line, a step of the editor or
    [git commit] has failed, no further step is taken except the
    removal of the temporary file. *)
Theorem nothing_follows_a_failure :
  forall w cfg autoYes dryRun stdin,
    accepted stop_monitor false
      (fst (runInteractiveCommit w cfg autoYes dryRun stdin)).
Proof.
  intros w cfg autoYes dryRun stdin.
  apply session_cases; intros; cbn [fst]; try (eexists; reflexivity).
  - destruct (git_diff_staged w) as [txt [e1|]]; [discriminate|].
    eexists; reflexivity.
  - match goal with
    | D : git_diff_staged w = _ |- _ => rewrite D
    end.
    eexists; reflexivity.
  - eapply accepted_app; [reflexivity | apply stop_loop].
Qed.

(** *** Every read has been asked for *)

(** Decides the tests of a goal, closing what [reflexivity] closes. *)
Ltac split_ifs :=
  repeat match goal with
         | |- context [if ?b then _ else _] =>
             lazymatch type of b with bool => idtac end;
             let v := eval vm_compute in b in
             first [ constr_eq v true; change b with true
                   | constr_eq v false; change b with false
                   | destruct b ];
             cbn
         end;
  try reflexivity.

Inductive Asked : Type := AskedNothing | AskedChoice | AskedFeedback.

(** What the last step asked of the user, and the reads that it allows:
    the decision line right after the choice prompt, the feedback line
    right after the feedback question. *)
Definition asked_step (s : Asked) (e : Event) : option Asked :=
  match e with
  | EvStdout text =>
      if String.eqb text choice_prompt then Some AskedChoice
      else if String.eqb text feedback_prompt then Some AskedFeedback
      else Some AskedNothing
  | EvReadString ChoiceLine _ =>
      match s with AskedChoice => Some AskedNothing | _ => None end
  | EvReadString FeedbackLine _ =>
      match s with AskedFeedback => Some AskedNothing | _ => None end
  | _ => Some AskedNothing
  end.

Definition asked_monitor : Monitor := {| mstate := Asked; mstep := asked_step |}.

Lemma asked_ask message rd s :
  mrun asked_monitor s (ask message rd) = Some AskedNothing.
Proof. cbn. split_ifs. Qed.

Lemma asked_edit w message s :
  accepted asked_monitor s (fst (editInEditor w message)) .
Proof. destruct (editInEditor_outcome w message); eexists; reflexivity. Qed.

Lemma asked_loop w autoYes dryRun model diff stdin message n : forall s,
  accepted asked_monitor s
    (fst (interactive_loop w autoYes dryRun model diff stdin message n)).
Proof.
  apply (loop_turn_ind w autoYes dryRun model diff
           (fun _ _ _ r => forall s, accepted asked_monitor s (fst r)));
    intros; cbn [fst];
    try (eexists; unfold regen_turn; rewrite ?mrun_app, ?asked_ask; reflexivity).
  - unfold accepted. cbn. split_ifs; eexists; reflexivity.
  - unfold accepted. cbn. split_ifs; eexists; reflexivity.
  - rewrite app_cons_mid. eapply accepted_app; [|auto].
    rewrite mrun_app, asked_ask. reflexivity.
  - unfold regen_turn. eapply accepted_app; [|auto].
    rewrite mrun_app, asked_ask. reflexivity.
  - eapply accepted_app; [apply asked_ask | apply asked_edit].
  - eapply accepted_app; [apply asked_ask|].
    destruct (asked_edit w message0 AskedNothing) as [s' E].
    eapply accepted_app; [exact E | eexists; reflexivity].
Qed.

(** X8.  The program never reads the terminal unasked: in every
    session, a read of the decision line comes right after the choice
    prompt was printed, and a read of the feedback line right after the
    feedback question. *)
Theorem every_read_follows_its_prompt :
  forall w cfg autoYes dryRun stdin,
    accepted asked_monitor AskedNothing
      (fst (runInteractiveCommit w cfg autoYes dryRun stdin)).
Proof.
  intros w cfg autoYes dryRun stdin.
  apply session_cases; intros; cbn [fst]; try (eexists; reflexivity).
  eapply accepted_app; [reflexivity | apply asked_loop].
Qed.

(** *** One call of the service per round *)

Definition is_service_call (ev : Event) : bool :=
  match ev with
  | EvServiceRun _ _ _ _ _ => true
  | _ => false
  end.

Definition is_feedback_read (ev : Event) : bool :=
  match ev with
  | EvReadString FeedbackLine _ => true
  | _ => false
  end.

Definition count (p : Event -> bool) (t : Trace) : nat :=
  List.length (filter p t).

Lemma count_app p (a b : Trace) : count p (a ++ b)%list = (count p a + count p b)%nat.
Proof. unfold count. now rewrite filter_app, length_app. Qed.

Lemma count_edit w message :
  count is_service_call (fst (editInEditor w message)) = O /\
  count is_feedback_read (fst (editInEditor w message)) = O.
Proof. destruct (editInEditor_outcome w message); split; reflexivity. Qed.

Lemma count_loop w autoYes dryRun model diff stdin message n :
  let t := fst (interactive_loop w autoYes dryRun model diff stdin message n) in
  count is_service_call t = count is_feedback_read t /\
  (dryRun = true \/ autoYes = true -> count is_service_call t = O).
Proof.
  cbv zeta.
  apply (loop_turn_ind w autoYes dryRun model diff
           (fun _ _ _ r =>
              count is_service_call (fst r) = count is_feedback_read (fst r) /\
              (dryRun = true \/ autoYes = true ->
               count is_service_call (fst r) = O)));
    intros; cbn [fst]; try (split; [reflexivity | intros; reflexivity]);
    try (split; [|intros [?|?]; congruence]).
  - rewrite app_cons_mid, !count_app. cbn. tauto.
  - reflexivity.
  - unfold regen_turn. rewrite !count_app. cbn.
    match goal with
    | IH : _ /\ _ |- _ => destruct IH as [IH _]; lia
    end.
  - rewrite !count_app. destruct (count_edit w message0) as [-> ->]. reflexivity.
  - rewrite !count_app. destruct (count_edit w message0) as [-> ->]. reflexivity.
Qed.

(** X9.  The service is called once to begin with and once more for
    each feedback line read, and never otherwise: in a session the
    number of calls is zero (nothing was read either) or one more than
    the number of feedback lines read; with dry-run or auto-approve set
    it is at most one. *)
Theorem one_service_call_per_round :
  forall w cfg autoYes dryRun stdin,
    let t := fst (runInteractiveCommit w cfg autoYes dryRun stdin) in
    (count is_service_call t = O /\ count is_feedback_read t = O \/
     count is_service_call t = S (count is_feedback_read t)) /\
    (dryRun = true \/ autoYes = true -> (count is_service_call t <= 1)%nat).
Proof.
  intros w cfg autoYes dryRun stdin. cbv zeta.
  apply session_cases; intros; cbn [fst];
    try (split; [left; split; reflexivity | intros; cbn; lia]).
  - split; [right; reflexivity | intros; cbn; lia].
  - rewrite !count_app.
    destruct (count_loop w autoYes dryRun (effective_model cfg) diff stdin
                (TrimSpace text) 1) as [E Z].
    split.
    + right. rewrite E. reflexivity.
    + intros F. rewrite (Z F). cbn. lia.
Qed.

(** *** The message the service yields *)

Lemma TrimSpace_fixed t :
  (forall r rest, In r space_runes -> t <> r ++ rest) ->
  (forall r init, In r space_runes -> t <> init ++ r) ->
  TrimSpace t = t.
Proof.
  intros L R. unfold TrimSpace.
  assert (FL : first_word space_code (list_ascii_of_string t) = None).
  { destruct (first_word space_code (list_ascii_of_string t)) as [x|] eqn:F;
      [exfalso|reflexivity].
    destruct (first_word_some _ _ _ F) as (r & I & E).
    unfold space_code in I. apply in_map_iff in I as (r0 & <- & I0).
    apply (L r0 (string_of_list_ascii x) I0).
    rewrite <- (string_of_list_ascii_of_string t), E, of_list_app.
    now rewrite string_of_list_ascii_of_string. }
  rewrite (strip_all_stuck _ _ FL).
  assert (FR : first_word space_code_rev (rev (list_ascii_of_string t)) = None).
  { destruct (first_word space_code_rev (rev (list_ascii_of_string t)))
      as [x|] eqn:F; [exfalso|reflexivity].
    destruct (first_word_some _ _ _ F) as (r & I & E).
    unfold space_code_rev, space_code in I.
    apply in_map_iff in I as (r1 & <- & I1).
    apply in_map_iff in I1 as (r0 & <- & I0).
    apply (R r0 (string_of_list_ascii (rev x)) I0).
    apply (f_equal (@rev ascii)) in E.
    rewrite rev_involutive, rev_app_distr, rev_involutive in E.
    rewrite <- (string_of_list_ascii_of_string t), E, of_list_app.
    now rewrite string_of_list_ascii_of_string. }
  rewrite (strip_all_stuck _ _ FR), rev_involutive.
  apply string_of_list_ascii_of_string.
Qed.

(** X10.  [generateCommitMessage] yields, when the service answers, the
    answer without the white space around it: trimming the message
    again changes nothing, and the message neither starts nor ends with
    a white-space rune; an answer of white space only yields the empty
    message, without error.  When the service fails it yields the empty
    string and the error [AI request failed] wrapping the failure.  It
    calls the service once, and does nothing else. *)
Theorem generateCommitMessage_yields_a_trimmed_message :
  forall w n model diff feedback,
    let p := prompt.CommitMessage diff feedback in
    let answer := service_Run w n model (fst p) (snd p) in
    let g := generateCommitMessage w n model diff feedback in
    fst g = [EvServiceRun n model (fst p) (snd p) answer] /\
    (snd answer = None ->
     snd g = (TrimSpace (fst answer), None) /\
     TrimSpace (fst (snd g)) = fst (snd g) /\
     (forall r rest, In r space_runes -> fst (snd g) <> r ++ rest) /\
     (forall r init, In r space_runes -> fst (snd g) <> init ++ r) /\
     (spaces (fst answer) -> fst (snd g) = EmptyString)) /\
    (forall e, snd answer = Some e ->
               snd g = (EmptyString, Some (ErrWrap "AI request failed" e))).
Proof.
  intros w n model diff feedback p answer g. subst g.
  unfold generateCommitMessage. fold p. fold answer.
  destruct answer as [txt [e|]]; cbn [fst snd]; io_steps.
  - split; [reflexivity|]. split; [discriminate|].
    intros e' E. inversion E. reflexivity.
  - split; [reflexivity|]. split; [|discriminate].
    intros _. destruct (TrimSpace_trimmed txt) as [L R].
    split; [reflexivity|]. split; [now apply TrimSpace_fixed|].
    split; [exact L|]. split; [exact R|].
    apply TrimSpace_spaces.
Qed.

(** X11.  When the first answer of the service is white space only, the
    session presents the empty message; with auto-approve set, or when
    the user approves it, [git commit] is called with the empty
    message. *)
Theorem blank_answer_is_committed_as_the_empty_message :
  forall w cfg stdin diff text,
    generates w cfg diff text ->
    spaces text ->
    commit_calls (fst (runInteractiveCommit w cfg true false stdin)) =
      [EmptyString] /\
    (forall rd rest,
        stdin = rd :: rest -> rd_err rd = None ->
        parse_decision w (rd_text rd) = Approve ->
        commit_calls (fst (runInteractiveCommit w cfg false false stdin)) =
          [EmptyString]).
Proof.
  intros w cfg stdin diff text G S. split.
  - rewrite (run_presented _ _ _ _ _ _ _ G), loop_auto, (TrimSpace_spaces _ S).
    reflexivity.
  - intros rd rest -> He D.
    rewrite (run_presented _ _ _ _ _ _ _ G), (loop_approve _ _ _ _ _ _ _ He D).
    rewrite (TrimSpace_spaces _ S). cbn [fst].
    rewrite !commit_calls_app. reflexivity.
Qed.

(** *** The prompt as a code for diff and feedback *)

Lemma append_cancel_l a x y : a ++ x = a ++ y -> x = y.
Proof.
  induction a as [|c a IH]; cbn; intros H; [exact H|].
  inversion H. auto.
Qed.

Lemma append_nil_r s : s ++ EmptyString = s.
Proof. induction s as [|c s IH]; cbn; [reflexivity | now rewrite IH]. Qed.

Lemma user_prompt_with_feedback d f :
  f <> EmptyString ->
  snd (prompt.CommitMessage d f) =
  (prompt.user_prefix ++ d) ++ prompt.feedback_marker ++ f.
Proof.
  intros N. unfold prompt.CommitMessage.
  apply String.eqb_neq in N. rewrite N. reflexivity.
Qed.

(** X12.  The prompt does not keep diff and feedback apart: a diff that
    itself ends with a blank line, the marker [User feedback for
    improvement: ] and a text [f] gives, with no feedback, the very
    prompt of the diff before that block with the feedback [f]. *)
Theorem diff_text_can_pose_as_feedback :
  forall d f,
    f <> EmptyString ->
    prompt.CommitMessage (d ++ prompt.feedback_marker ++ f) EmptyString =
    prompt.CommitMessage d f.
Proof.
  intros d f N.
  assert (U : snd (prompt.CommitMessage (d ++ prompt.feedback_marker ++ f) EmptyString)
              = snd (prompt.CommitMessage d f)).
  { rewrite (user_prompt_with_feedback d f N). cbn [prompt.CommitMessage snd].
    change (if negb (String.eqb EmptyString EmptyString) then _ else ?x) with x.
    now rewrite append_assoc. }
  unfold prompt.CommitMessage in *. cbn [snd] in U. now rewrite U.
Qed.

(** X13.  For a given diff the prompt tells the feedback: two feedbacks
    that give the same prompt are equal; and with no feedback the
    prompt tells the diff. *)
Theorem prompt_determines_the_feedback :
  forall d,
    (forall f f', prompt.CommitMessage d f = prompt.CommitMessage d f' -> f = f') /\
    (forall d', prompt.CommitMessage d EmptyString =
                prompt.CommitMessage d' EmptyString -> d = d').
Proof.
  intros d. split.
  - intros f f' H. apply (f_equal snd) in H.
    destruct (String.eqb_spec f EmptyString) as [->|N];
      destruct (String.eqb_spec f' EmptyString) as [->|N']; [reflexivity| | |].
    + rewrite (user_prompt_with_feedback d f' N') in H. cbn [prompt.CommitMessage snd] in H.
      change (if negb (String.eqb EmptyString EmptyString) then _ else ?x) with x in H.
      rewrite <- (append_nil_r (prompt.user_prefix ++ d)) in H at 1.
      apply append_cancel_l in H. discriminate H.
    + rewrite (user_prompt_with_feedback d f N) in H. cbn [prompt.CommitMessage snd] in H.
      change (if negb (String.eqb EmptyString EmptyString) then _ else ?x) with x in H.
      rewrite <- (append_nil_r (prompt.user_prefix ++ d)) in H at 2.
      apply append_cancel_l in H. discriminate H.
    + rewrite (user_prompt_with_feedback d f N),
        (user_prompt_with_feedback d f' N') in H.
      now do 2 apply append_cancel_l in H.
  - intros d' H. apply (f_equal snd) in H. cbn [prompt.CommitMessage snd] in H.
    change (if negb (String.eqb EmptyString EmptyString) then _ else ?x) with x in H.
    now apply append_cancel_l in H.
Qed.

(** *** The editor that is started *)

Definition step_editor (ev : Event) : option string :=
  match ev with
  | EvEditor editor _ => Some editor
  | _ => None
  end.

(** X14.  Whenever a session starts an editor, the program it starts is
    the value of [EDITOR], or [vim] when [EDITOR] is unset or empty: it
    is never the empty name. *)
Theorem editor_is_EDITOR_or_vim :
  forall w cfg autoYes dryRun stdin ev editor,
    In ev (fst (runInteractiveCommit w cfg autoYes dryRun stdin)) ->
    step_editor ev = Some editor ->
    editor <> EmptyString /\
    (getenv_EDITOR w = EmptyString -> editor = "vim") /\
    (getenv_EDITOR w <> EmptyString -> editor = getenv_EDITOR w).
Proof.
  intros w cfg autoYes dryRun stdin.
  pose (P := fun ev : Event =>
               forall editor, step_editor ev = Some editor ->
               editor <> EmptyString /\
               (getenv_EDITOR w = EmptyString -> editor = "vim") /\
               (getenv_EDITOR w <> EmptyString -> editor = getenv_EDITOR w)).
  enough (F : Forall P (fst (runInteractiveCommit w cfg autoYes dryRun stdin))).
  { intros ev editor Hin. exact (proj1 (Forall_forall P _) F ev Hin editor). }
  assert (E : forall message ev,
             In ev (fst (editInEditor w message)) ->
             forall editor, step_editor ev = Some editor ->
             editor <> EmptyString /\
             (getenv_EDITOR w = EmptyString -> editor = "vim") /\
             (getenv_EDITOR w <> EmptyString -> editor = getenv_EDITOR w)).
  { intros message ev Hin editor S.
    assert (editor = editor_name w).
    { destruct (editInEditor_outcome w message); cbn [fst] in Hin;
        repeat (destruct Hin as [Hin|Hin];
                [subst ev; try discriminate S; inversion S; reflexivity|]);
        destruct Hin. }
    subst editor. unfold editor_name.
    destruct (String.eqb_spec (getenv_EDITOR w) EmptyString) as [Z|N].
    - repeat split; try discriminate; congruence.
    - repeat split; try assumption; congruence. }
  subst P. apply session_cases; intros;
    try (repeat constructor; cbn; intros; discriminate).
  apply Forall_app. split.
  - repeat constructor; cbn; intros; discriminate.
  - apply loop_steps; try (intros; cbn; intros; discriminate). exact E.
Qed.

(** *** The end of the terminal's input *)

(** X15.  When the terminal has nothing to read, or nothing but lines
    that are no decision, a session without dry-run and auto-approve
    that reached its first message returns the error [failed to read
    input] with the cause [EOF]; no commit is called, the service was
    called once, and the process does not exit 0. *)
Theorem end_of_input_ends_the_session :
  forall w cfg diff text bad,
    generates w cfg diff text ->
    Forall (refused w) bad ->
    let r := runInteractiveCommit w cfg false false bad in
    snd r = Some (CLIError "failed to read input" None (Some io_EOF)) /\
    commit_calls (fst r) = [] /\
    count is_service_call (fst r) = 1%nat /\
    exit_code (snd r) = 1%Z.
Proof.
  intros w cfg diff text bad G B r. subst r.
  assert (L : interactive_loop w false false (effective_model cfg) diff bad
                (TrimSpace text) 1 =
              ((reprompts (TrimSpace text) bad ++
                ask (TrimSpace text) (next_line []))%list,
               Some (read_failed io_EOF))).
  { rewrite <- (app_nil_r bad) at 1.
    rewrite (loop_invalid_many _ _ _ _ _ _ _ B), loop_eof. reflexivity. }
  rewrite (run_presented _ _ _ _ _ _ _ G), L. cbn [fst snd].
  split; [reflexivity|].
  assert (Q : commit_calls (reprompts (TrimSpace text) bad) = [] /\
              count is_service_call (reprompts (TrimSpace text) bad) = O).
  { clear. induction bad as [|rd bad [IH1 IH2]]; [split; reflexivity|].
    unfold reprompts in *. cbn [flat_map].
    rewrite !commit_calls_app, !count_app, IH1, IH2. split; reflexivity. }
  destruct Q as [Q1 Q2].
  rewrite !commit_calls_app, !count_app, Q1, Q2.
  repeat split.
Qed.

(* ================================================================== *)
(** ** Further sessions run in sample worlds *)

Section MoreRuns.

Import Examples.

(** As [happy], but the service answers with a blank line. *)
Definition blank_answers : World :=
  {| git_diff_staged_quiet := Some (ExitError 1);
     git_diff_staged := (sample_diff, None);
     ai_NewClient := fun _ => None;
     service_Run := fun _ _ _ _ => (" " ++ LF, None);
     getenv_EDITOR := EmptyString;
     os_CreateTemp := None;
     tmp_WriteString := fun _ => None;
     editor_Run := fun _ content => (content, None);
     os_ReadFile := None;
     git_commit := fun _ => Some (ExitError 1);
     unicode_ToLower := fun s => s |}.

Lemma blank_answers_generates :
  generates blank_answers cfg0 sample_diff (" " ++ LF).
Proof. unfold generates. repeat split; try reflexivity. discriminate. Qed.

Lemma spaces_blank_answer : spaces (" " ++ LF).
Proof.
  change (spaces (" " ++ LF ++ EmptyString)).
  repeat (apply spaces_cons; [space_rune|]). constructor.
Qed.

Lemma model_flag_run :
  "claude-sonnet-4-5-20250929" = chosen_model cfg0 "claude-sonnet-4-5-20250929".
Proof.
  refine (proj1 (every_call_uses_the_chosen_model
                   happy cfg0 false true "claude-sonnet-4-5-20250929" []
                   (EvServiceRun 0 "claude-sonnet-4-5-20250929"
                      prompt.system_prompt (prompt.user_prefix ++ sample_diff)
                      ("  feat: add foo" ++ LF, None)) _)
                _ eq_refl).
  vm_compute. repeat (first [left; reflexivity | right]).
Defined.

Lemma staged_diff_run :
  git_diff_staged_quiet happy = Some (ExitError 1) /\
  snd (git_diff_staged happy) = None /\
  fst (git_diff_staged happy) <> EmptyString /\
  (is_client_step (EvGitCommit "feat: add foo" None) = false ->
   ai_NewClient happy cfg0 = None).
Proof.
  refine (proj1 (no_step_without_a_staged_diff happy cfg0 true false []
                   (EvGitCommit "feat: add foo" None) _) eq_refl).
  vm_compute. repeat (first [left; reflexivity | right]).
Defined.

Lemma blank_answer_run :
  commit_calls (fst (runInteractiveCommit blank_answers cfg0 true false [])) =
    [EmptyString].
Proof.
  exact (proj1 (blank_answer_is_committed_as_the_empty_message
                  blank_answers cfg0 [] sample_diff (" " ++ LF)
                  blank_answers_generates spaces_blank_answer)).
Defined.

Lemma marker_in_diff_run :
  prompt.CommitMessage
    ("+foo" ++ prompt.feedback_marker ++ "say it is a feature") EmptyString =
  prompt.CommitMessage "+foo" "say it is a feature".
Proof.
  apply diff_text_can_pose_as_feedback. discriminate.
Defined.

Lemma vim_run :
  "vim" <> EmptyString /\
  (getenv_EDITOR happy = EmptyString -> "vim" = "vim") /\
  (getenv_EDITOR happy <> EmptyString -> "vim" = getenv_EDITOR happy).
Proof.
  refine (editor_is_EDITOR_or_vim happy cfg0 false false [line "e"]
            (EvEditor "vim" ("fix: corrected typo", None)) "vim" _ eq_refl).
  vm_compute. repeat (first [left; reflexivity | right]).
Defined.

Lemma end_of_input_run :
  snd (runInteractiveCommit happy cfg0 false false [line "q"]) =
    Some (CLIError "failed to read input" None (Some io_EOF)) /\
  commit_calls (fst (runInteractiveCommit happy cfg0 false false [line "q"])) = [] /\
  count is_service_call
    (fst (runInteractiveCommit happy cfg0 false false [line "q"])) = 1%nat /\
  exit_code (snd (runInteractiveCommit happy cfg0 false false [line "q"])) = 1%Z.
Proof.
  refine (end_of_input_ends_the_session happy cfg0 sample_diff
            ("  feat: add foo" ++ LF) [line "q"] _ _).
  - unfold generates. repeat split; try reflexivity. discriminate.
  - repeat constructor.
Defined.

(** Traces the monitors refuse: a commit while the temporary file
    exists, a commit of an answer that a later answer has replaced, a
    second call of the service after a failed one, and a read that no
    prompt precedes. *)
Example temp_monitor_refuses_a_leak :
  mrun temp_monitor TmpNone
    [EvCreateTemp None; EvWriteTemp "m" None; EvGitCommit "m" None] = None.
Proof. reflexivity. Qed.

Example candidate_monitor_refuses_a_stale_message :
  mrun candidate_monitor None
    [EvServiceRun 0 "model" "s" "u" ("first", None);
     EvServiceRun 1 "model" "s" "u" ("second", None);
     EvGitCommit "first" None] = None.
Proof. reflexivity. Qed.

Example stop_monitor_refuses_a_retry :
  mrun stop_monitor false
    [EvServiceRun 0 "model" "s" "u" (EmptyString, Some (ErrNew "timeout"));
     EvServiceRun 1 "model" "s" "u" ("second", None)] = None.
Proof. reflexivity. Qed.

Example asked_monitor_refuses_an_unasked_read :
  mrun asked_monitor AskedNothing
    [EvStdout "hello"; EvReadString ChoiceLine (line "y")] = None.
Proof. reflexivity. Qed.

(** The monitors on a session with an invalid line, a regeneration and
    an edit. *)
Example monitors_accept_a_long_session :
  let t := fst (runInteractiveCommit happy cfg0 false false
                  [line "q"; line "n"; line "shorter"; line "e"]) in
  mrun temp_monitor TmpNone t = Some TmpNone /\
  mrun candidate_monitor None t = Some (Some "fix: corrected typo") /\
  mrun stop_monitor false t = Some false /\
  mrun asked_monitor AskedNothing t = Some AskedNothing /\
  ended_well t = true /\
  count is_service_call t = 2%nat.
Proof. vm_compute. repeat split. Qed.

End MoreRuns.
